(** * Symbolic expressions: node model, combinators, renderer, postorder
      visitor and differentiation

    A shallow embedding of [expressions/expressions.py].

    - Expression nodes are an inductive type; the classes of the Python
      hierarchy are its constructors and the class tag [opclass].
    - Python exceptions are the [Err] side of [result].
    - [postvisitor] keys its memo on object identity, so it is modelled over
      an explicit heap of nodes addressed by allocation order. *)

From stdpp Require Import gmap strings list pretty.

Set Warnings "-register-all".

(** ** Python values *)

(** Values accepted by [isinstance(value, (int, float, complex))].  [bool] is
    a subclass of [int].  The code never computes with a float or a complex:
    it only prints them, so they are carried by their [str()] text. *)
Inductive number :=
| NInt (z : Z)
| NBool (b : bool)
| NFloat (text : string)
| NComplex (text : string).

(** A Python value that is not an [Expression]. *)
Inductive pyval :=
| PyNum (n : number)
| PyStr (s : string)
| PyNone
| PyOther (type_name text : string).

(** ** Exceptions and the error monad *)

Inductive exn :=
| ValueError (msg : string)
| NotImplementedError (msg : string)
| AttributeError (msg : string)
| UnpackError (expected got : nat)
| KeyError (key : nat).

(** The Python exception classes the code can raise. *)
Inductive exn_class := ValueError_cls | NotImplementedError_cls | AttributeError_cls | KeyError_cls.

(** Unpacking a tuple of the wrong length ([f, g = expr.operands]) raises a
    [ValueError]. *)
Definition class_of (e : exn) : exn_class :=
  match e with
  | ValueError _ => ValueError_cls
  | NotImplementedError _ => NotImplementedError_cls
  | AttributeError _ => AttributeError_cls
  | UnpackError _ _ => ValueError_cls
  | KeyError _ => KeyError_cls
  end.

Inductive result (A : Type) :=
| Ok (a : A)
| Err (e : exn).
Arguments Ok {A} a.
Arguments Err {A} e.

Global Instance result_ret : MRet result := λ A a, Ok a.

Global Instance result_bind : MBind result := λ A B k m,
  match m with
  | Ok a => k a
  | Err e => Err e
  end.

(** [[f(x) for x in l]], stopping at the first exception. *)
Definition traverse {A B} (f : A → result B) : list A → result (list B) :=
  fix go l :=
    match l with
    | [] => Ok []
    | x :: l' => y ← f x; ys ← go l'; Ok (y :: ys)
    end.

Definition raises {A} (m : result A) (c : exn_class) : Prop :=
  ∃ e, m = Err e ∧ class_of e = c.

(** ** Node model *)

(** The [Operator] class and its subclasses. *)
Inductive opclass := Operator_cls | Add_cls | Sub_cls | Mul_cls | Div_cls | Pow_cls.

Global Instance opclass_eq_dec : EqDecision opclass.
Proof. solve_decision. Defined.

(** Instances of [Terminal], [Number], [Symbol], and of [Operator] and its
    subclasses.  [Expression] itself is the abstract base. *)
Inductive expr :=
| ENumber (value : number)
| ESymbol (value : string)
| ETerminal (value : pyval)
| EOp (c : opclass) (operands : list expr).

(** Number of nodes of an expression tree. *)
Fixpoint expr_size (e : expr) : nat :=
  match e with
  | EOp _ operands => S (foldr (λ o n, expr_size o + n) 0 operands)
  | _ => 1
  end.

(** An argument of a constructor or of an infix operator: an [Expression] or
    any other Python value. *)
Inductive pyobj :=
| Obj (e : expr)
| Val (v : pyval).

Definition type_name (e : expr) : string :=
  match e with
  | ENumber _ => "Number"
  | ESymbol _ => "Symbol"
  | ETerminal _ => "Terminal"
  | EOp Operator_cls _ => "Operator"
  | EOp Add_cls _ => "Add"
  | EOp Sub_cls _ => "Sub"
  | EOp Mul_cls _ => "Mul"
  | EOp Div_cls _ => "Div"
  | EOp Pow_cls _ => "Pow"
  end.

Definition isinstance_Operator (e : expr) : bool :=
  match e with EOp _ _ => true | _ => false end.

Definition isinstance_Number (e : expr) : bool :=
  match e with ENumber _ => true | _ => false end.

(** [precedence] is [float('inf')] on [Expression] and the terminals, an
    [int] on the operators. *)
Inductive prec :=
| Fin (n : nat)
| Inf.

Definition prec_ltb (p q : prec) : bool :=
  match p, q with
  | Fin m, Fin n => m <? n
  | Fin _, Inf => true
  | Inf, _ => false
  end.

Definition class_precedence (c : opclass) : prec :=
  match c with
  | Operator_cls => Fin 0
  | Add_cls | Sub_cls => Fin 1
  | Mul_cls | Div_cls => Fin 2
  | Pow_cls => Fin 3
  end.

Definition precedence (e : expr) : prec :=
  match e with
  | EOp c _ => class_precedence c
  | _ => Inf
  end.

(** [symbol] is [None] on the base class [Operator]. *)
Definition symbol (c : opclass) : option string :=
  match c with
  | Operator_cls => None
  | Add_cls => Some "+"
  | Sub_cls => Some "-"
  | Mul_cls => Some "*"
  | Div_cls => Some "/"
  | Pow_cls => Some "^"
  end.

(** *** Constructors *)

(** [Operator.__init__], inherited by every operator class. *)
Definition Operator__init__ (c : opclass) (operands : list expr) : result expr :=
  if length operands <? 1
  then Err (ValueError "Operators must have at least one operand")
  else Ok (EOp c operands).

Definition Operator := Operator__init__ Operator_cls.
Definition Add := Operator__init__ Add_cls.
Definition Sub := Operator__init__ Sub_cls.
Definition Mul := Operator__init__ Mul_cls.
Definition Div := Operator__init__ Div_cls.
Definition Pow := Operator__init__ Pow_cls.

(** [Terminal.__init__] stores any value. *)
Definition Terminal (value : pyval) : result expr := Ok (ETerminal value).

(** [Number.__init__]. *)
Definition Number (value : pyobj) : result expr :=
  match value with
  | Val (PyNum n) => Ok (ENumber n)
  | _ => Err (ValueError "Number value must be numeric")
  end.

(** [Symbol.__init__]. *)
Definition Symbol (value : pyobj) : result expr :=
  match value with
  | Val (PyStr s) => Ok (ESymbol s)
  | _ => Err (ValueError "Symbol value must be a string")
  end.

Definition isinstance_numeric (value : pyobj) : bool :=
  match value with Val (PyNum _) => true | _ => false end.

Definition isinstance_str (value : pyobj) : bool :=
  match value with Val (PyStr _) => true | _ => false end.

Definition isinstance_Expression (value : pyobj) : bool :=
  match value with Obj _ => true | Val _ => false end.

(** ** Combinator API *)

(** The shared prologue of the infix methods:
    [if not isinstance(other, Expression): other = Number(other)]. *)
Definition as_Expression (other : pyobj) : result expr :=
  match other with
  | Obj e => Ok e
  | Val _ => Number other
  end.

Definition __add__ (self : expr) (other : pyobj) : result expr :=
  other ← as_Expression other; Add [self; other].

Definition __sub__ (self : expr) (other : pyobj) : result expr :=
  other ← as_Expression other; Sub [self; other].

Definition __mul__ (self : expr) (other : pyobj) : result expr :=
  other ← as_Expression other; Mul [self; other].

Definition __truediv__ (self : expr) (other : pyobj) : result expr :=
  other ← as_Expression other; Div [self; other].

Definition __pow__ (self : expr) (other : pyobj) : result expr :=
  other ← as_Expression other; Pow [self; other].

Definition __radd__ (self : expr) (other : pyobj) : result expr :=
  __add__ self other.

Definition __rsub__ (self : expr) (other : pyobj) : result expr :=
  other ← as_Expression other; Sub [other; self].

Definition __rmul__ (self : expr) (other : pyobj) : result expr :=
  __mul__ self other.

Definition __rtruediv__ (self : expr) (other : pyobj) : result expr :=
  other ← as_Expression other; Div [other; self].

Definition __rpow__ (self : expr) (other : pyobj) : result expr :=
  other ← as_Expression other; Pow [other; self].

(** ** Renderer *)

Definition str_number (n : number) : string :=
  match n with
  | NInt z => pretty z
  | NBool true => "True"
  | NBool false => "False"
  | NFloat text => text
  | NComplex text => text
  end.

Definition str_value (v : pyval) : string :=
  match v with
  | PyNum n => str_number n
  | PyStr s => s
  | PyNone => "None"
  | PyOther _ text => text
  end.

(** [f" {self.symbol} "]. *)
Definition separator (c : opclass) : string :=
  " " +:+ default "None" (symbol c) +:+ " ".

(** The test of [Operator.__str__] on one operand. *)
Definition parenthesized (self_precedence : prec) (operand : expr) : bool :=
  isinstance_Operator operand && prec_ltb (precedence operand) self_precedence.

(** In the two [__str__] methods below every operand comes with its own
    rendering [str(operand)]. *)

(** One iteration of the loop of [Operator.__str__]. *)
Definition Operator_part (self_precedence : prec) (operand : expr * string) : string :=
  if parenthesized self_precedence operand.1
  then "(" +:+ operand.2 +:+ ")"
  else operand.2.

Definition Operator__str__ (c : opclass) (operands : list (expr * string)) : string :=
  String.concat (separator c) (map (Operator_part (class_precedence c)) operands).

Definition Mul__str__ (operands : list (expr * string)) : string :=
  let constants := List.filter (λ op, isinstance_Number op.1) operands in
  let others := List.filter (λ op, negb (isinstance_Number op.1)) operands in
  String.concat " * " (map snd (constants ++ others)).

Fixpoint str (e : expr) : string :=
  match e with
  | ENumber n => str_number n
  | ESymbol s => s
  | ETerminal v => str_value v
  | EOp c operands =>
      let rendered := map (λ operand, (operand, str operand)) operands in
      match c with
      | Mul_cls => Mul__str__ rendered
      | _ => Operator__str__ c rendered
      end
  end.

(** The text of an operand of a [Sub] node. *)
Definition Sub_operand (o : expr) : string :=
  if parenthesized (Fin 1) o then "(" +:+ str o +:+ ")" else str o.

(** ** Differentiation *)

(** The default implementation of the [singledispatch] function: evaluating
    the message reads [type(expr)._name_], an attribute no class has. *)
Definition differentiate_default (e : expr) : result expr :=
  Err (AttributeError ("type object '" +:+ type_name e +:+ "' has no attribute '_name_'")).

(** [expr.value == var] for the [str] value of a [Symbol]. *)
Definition str_eq (value : string) (var : pyobj) : bool :=
  match var with
  | Val (PyStr s) => bool_decide (value = s)
  | _ => false
  end.

Fixpoint differentiate (e : expr) (var : pyobj) {struct e} : result expr :=
  match e with
  | ENumber _ => Number (Val (PyNum (NInt 0)))
  | ESymbol value =>
      if str_eq value var
      then Number (Val (PyNum (NInt 1)))
      else Number (Val (PyNum (NInt 0)))
  | ETerminal _ => differentiate_default e
  | EOp Add_cls operands =>
      ds ← traverse (λ op, differentiate op var) operands;
      Add ds
  | EOp Mul_cls operands =>
      match operands with
      | [f; g] =>
          df ← differentiate f var;
          l ← Mul [df; g];
          dg ← differentiate g var;
          r ← Mul [dg; f];
          Add [l; r]
      | _ => Err (UnpackError 2 (length operands))
      end
  | EOp Div_cls operands =>
      match operands with
      | [f; g] =>
          df ← differentiate f var;
          l ← Mul [df; g];
          dg ← differentiate g var;
          r ← Mul [dg; f];
          num ← Sub [l; r];
          two ← Number (Val (PyNum (NInt 2)));
          den ← Pow [g; two];
          Div [num; den]
      | _ => Err (UnpackError 2 (length operands))
      end
  | EOp Pow_cls operands =>
      match operands with
      | [base; exponent] =>
          if isinstance_Number exponent
          then
            one ← Number (Val (PyNum (NInt 1)));
            e1 ← Sub [exponent; one];
            p ← Pow [base; e1];
            l ← Mul [exponent; p];
            db ← differentiate base var;
            Mul [l; db]
          else Err (NotImplementedError "Variable exponents are not yet supported.")
      | _ => Err (UnpackError 2 (length operands))
      end
  | EOp _ _ => differentiate_default e
  end.

(** ** Traversal engine *)

(** [Expression] defines neither [__eq__] nor [__hash__]: the [visited]
    dictionary of [postvisitor] is keyed on object identity.  Objects live in
    a heap; an address is the identity of the object stored there, and an
    operator holds the addresses of its operands. *)
Definition addr := nat.

Inductive object :=
| ONumber (value : number)
| OSymbol (value : string)
| OTerminal (value : pyval)
| OOp (c : opclass) (operands : list addr).

(** [node.operands]: the empty tuple on a terminal. *)
Definition operands (o : object) : list addr :=
  match o with
  | OOp _ ops => ops
  | _ => []
  end.

(** Every reference designates an object. *)
Definition heap := addr → object.

(** Operands are built before the node that holds them, and nodes are never
    mutated: references point to older objects. *)
Definition acyclic (h : heap) : Prop :=
  ∀ a, Forall (λ c, c < a) (operands (h a)).

Record state (R : Type) := State {
  visited : gmap addr R;
  stack : list (addr * bool);
  calls : list addr
}.
Arguments State {R} visited stack calls.
Arguments visited {R} s.
Arguments stack {R} s.
Arguments calls {R} s.

Section postvisitor.
Context {R : Type}.
Variable h : heap.
(** [fn(node, *operand_results, **kwargs)]: the node is given by its
    identity and its content; the keyword arguments are fixed for the
    whole call. *)
Variable fn : addr → object → list R → R.

(** [visited[c]] *)
Definition subscript (visited : gmap addr R) (c : addr) : result R :=
  match visited !! c with
  | Some r => Ok r
  | None => Err (KeyError c)
  end.

(** The [for child in reversed(node.operands)] loop; the head of the list
    is the top of the stack. *)
Definition push_children (visited : gmap addr R) (children : list addr)
    (stack : list (addr * bool)) : list (addr * bool) :=
  foldl (λ stack child,
           match visited !! child with
           | None => (child, false) :: stack
           | Some _ => stack
           end) stack (reverse children).

(** One iteration of the [while stack] loop, after [stack.pop()] returned
    [(node, processed)] and left [rest].  [calls] records, in order, the
    nodes [fn] was applied to. *)
Definition iteration (st : state R) (node : addr) (processed : bool)
    (rest : list (addr * bool)) : result (state R) :=
  match visited st !! node with
  | Some _ => Ok (State (visited st) rest (calls st))
  | None =>
      if processed then
        operand_results ← traverse (subscript (visited st)) (operands (h node));
        Ok (State (<[node := fn node (h node) operand_results]> (visited st))
              rest (calls st ++ [node]))
      else
        Ok (State (visited st)
              (push_children (visited st) (operands (h node)) ((node, true) :: rest))
              (calls st))
  end.

(** The [while] loop; [None] when the fuel runs out. *)
Fixpoint loop (fuel : nat) (st : state R) : option (result (state R)) :=
  match stack st with
  | [] => Some (Ok st)
  | (node, processed) :: rest =>
      match fuel with
      | 0 => None
      | S fuel =>
          match iteration st node processed rest with
          | Ok st' => loop fuel st'
          | Err e => Some (Err e)
          end
      end
  end.

(** [postvisitor(expr, fn, **kwargs)], returning [visited[expr]] together
    with the record of the calls of [fn]. *)
Definition postvisitor (fuel : nat) (expr : addr) : option (result (R * list addr)) :=
  match loop fuel (State ∅ [(expr, false)] []) with
  | None => None
  | Some (Err e) => Some (Err e)
  | Some (Ok st) => Some (r ← subscript (visited st) expr; Ok (r, calls st))
  end.

(** [reach a x]: [x] is [a] or is reachable from [a] through operands. *)
Inductive reach : addr → addr → Prop :=
| reach_self a : reach a a
| reach_operand a c x : c ∈ operands (h a) → reach c x → reach a x.

(** [evaluates a r]: [r] is [fn] applied to the node at [a] and to the
    values of its operands, bottom-up. *)
Inductive evaluates : addr → R → Prop :=
| evaluates_node a rs :
    Forall2 evaluates (operands (h a)) rs → evaluates a (fn a (h a) rs).

(** Stack entries of nodes still to be expanded. *)
Definition pending (cs : list addr) : list (addr * bool) :=
  map (λ c, (c, false)) cs.

Fixpoint unvisited (v : gmap addr R) (cs : list addr) : list addr :=
  match cs with
  | [] => []
  | c :: cs =>
      match v !! c with
      | None => c :: unvisited v cs
      | Some _ => unvisited v cs
      end
  end.

(** The loop invariant on the memo and on the record of calls. *)
Record inv (v : gmap addr R) (l : list addr) : Prop := {
  inv_values : ∀ a r, v !! a = Some r → evaluates a r;
  inv_closed : ∀ a c, is_Some (v !! a) → c ∈ operands (h a) → is_Some (v !! c);
  inv_nodup : NoDup l;
  inv_calls : ∀ a, a ∈ l ↔ is_Some (v !! a)
}.

(** What running the loop on a block of pending entries achieves. *)
Definition runs_to (cs : list addr) (rest : list (addr * bool))
    (v : gmap addr R) (l : list addr) : Prop :=
  ∃ k v' l',
    (∀ fuel, loop (k + fuel) (State v (pending cs ++ rest) l)
             = loop fuel (State v' rest l')) ∧
    inv v' l' ∧
    (∀ x, is_Some (v' !! x) ↔ is_Some (v !! x) ∨ ∃ c, c ∈ cs ∧ reach c x).
End postvisitor.

(** [shared = Symbol("x"); e = Add(shared, shared)]: [shared] is at address
    0 and [e] at address 1. *)
Definition shared_heap : heap :=
  λ a, match a with
       | 1 => OOp Add_cls [0; 0]
       | _ => OSymbol "x"
       end.

(** [e = Add(Symbol("x"), Symbol("x"))]: two equal but distinct symbols at
    addresses 0 and 1, [e] at address 2. *)
Definition distinct_heap : heap :=
  λ a, match a with
       | 2 => OOp Add_cls [0; 1]
       | _ => OSymbol "x"
       end.

(** A visitor function: the number of nodes of the tree a node unfolds to. *)
Definition tree_size (_ : addr) (_ : object) (operand_results : list nat) : nat :=
  S (foldr Nat.add 0 operand_results).

(** ** Notions used to state further properties *)

(** The invariant of [Operator.__init__] on every node of a tree: an
    operator has at least one operand. *)
Fixpoint well_formed (e : expr) : bool :=
  match e with
  | EOp _ operands =>
      negb (length operands <? 1) && forallb well_formed operands
  | _ => true
  end.


(** [ready h v above stk]: every entry of the stack that waits for its
    operands finds each of them in the memo or among the nodes [above] it. *)
Fixpoint ready {R} (h : heap) (v : gmap addr R) (above : list addr)
    (stk : list (addr * bool)) : Prop :=
  match stk with
  | [] => True
  | (node, processed) :: below =>
      (processed = true →
       Forall (λ c, is_Some (v !! c) ∨ c ∈ above) (operands (h node))) ∧
      ready h v (node :: above) below
  end.

(** A state from which no subscript of the memo can fail. *)
Definition safe {R} (h : heap) (expr : addr) (st : state R) : Prop :=
  ready h (visited st) [] (stack st) ∧
  (is_Some (visited st !! expr) ∨ expr ∈ (stack st).*1).

(** In a record of calls, every operand of a node stands before the node. *)
Definition postordered (h : heap) (l : list addr) : Prop :=
  ∀ i a c, l !! i = Some a → c ∈ operands (h a) → ∃ j, j < i ∧ l !! j = Some c.

(** The calls recorded so far are the keys of the memo, in postorder. *)
Definition recorded {R} (h : heap) (st : state R) : Prop :=
  (∀ x, x ∈ calls st ↔ is_Some (visited st !! x)) ∧ postordered h (calls st).

(** What a visitor function can read on a node apart from its identity. *)
Inductive head :=
| HNumber (value : number)
| HSymbol (value : string)
| HTerminal (value : pyval)
| HOp (c : opclass).

Definition head_of (o : object) : head :=
  match o with
  | ONumber n => HNumber n
  | OSymbol s => HSymbol s
  | OTerminal v => HTerminal v
  | OOp c _ => HOp c
  end.

(** The plain recursive evaluation of a tree, without memo. *)
Fixpoint fold_expr {R} (alg : head → list R → R) (e : expr) : R :=
  match e with
  | ENumber n => alg (HNumber n) []
  | ESymbol s => alg (HSymbol s) []
  | ETerminal v => alg (HTerminal v) []
  | EOp c operands => alg (HOp c) (map (fold_expr alg) operands)
  end.

(** [represents h a e]: the object at [a] unfolds to the tree [e]. *)
Inductive represents (h : heap) : addr → expr → Prop :=
| represents_Number a n : h a = ONumber n → represents h a (ENumber n)
| represents_Symbol a s : h a = OSymbol s → represents h a (ESymbol s)
| represents_Terminal a v : h a = OTerminal v → represents h a (ETerminal v)
| represents_Op a c operands es :
    h a = OOp c operands → Forall2 (represents h) operands es →
    represents h a (EOp c es).

(** The number of nodes of a record of calls plus the number of their
    operand slots. *)
Definition work (h : heap) (l : list addr) : nat :=
  foldr (λ n k, S (length (operands (h n))) + k) 0 l.

(** Running a block of pending entries, with the number of iterations it
    takes bounded by the work on the nodes it adds to the record. *)
Definition runs_within {R} (h : heap) (fn : addr → object → list R → R)
    (cs : list addr) (rest : list (addr * bool))
    (v : gmap addr R) (l : list addr) : Prop :=
  ∃ k v' new,
    (∀ fuel, loop h fn (k + fuel) (State v (pending cs ++ rest) l)
             = loop h fn fuel (State v' rest (l ++ new))) ∧
    inv h fn v' (l ++ new) ∧
    (∀ x, is_Some (v' !! x) ↔ is_Some (v !! x) ∨ ∃ c, c ∈ cs ∧ reach h c x) ∧
    k ≤ length cs + work h new.

(** * Properties *)

(** ** Renderer *)

Lemma rendered_filter (p : expr → bool) (f : expr → string) (l : list expr) :
  map snd (List.filter (λ op, p op.1) (map (λ o, (o, f o)) l)) = map f (List.filter p l).
Proof.
  induction l as [|o l IH]; simpl; [done|].
  destruct (p o); simpl; by rewrite IH.
Qed.

(** [Mul.__str__] in terms of the operands alone. *)
Lemma str_Mul operands :
  str (EOp Mul_cls operands) =
  String.concat " * "
    (map str (List.filter isinstance_Number operands ++
              List.filter (λ o, negb (isinstance_Number o)) operands)).
Proof.
  simpl. unfold Mul__str__.
  rewrite !map_app.
  rewrite (rendered_filter isinstance_Number str).
  by rewrite (rendered_filter (λ o, negb (isinstance_Number o)) str).
Qed.

(** [Operator.__str__], which every operator class but [Mul] inherits, in
    terms of the operands alone. *)
Lemma str_Operator c operands :
  c ≠ Mul_cls →
  str (EOp c operands) =
  String.concat (separator c)
    (map (λ o, if parenthesized (class_precedence c) o
               then "(" +:+ str o +:+ ")" else str o) operands).
Proof.
  intros Hc.
  assert (str (EOp c operands) =
          Operator__str__ c (map (λ o, (o, str o)) operands)) as ->
    by (by destruct c).
  unfold Operator__str__. by rewrite map_map.
Qed.

Example str_sum :
  str (EOp Add_cls [ESymbol "x"; EOp Mul_cls [ESymbol "y"; ENumber (NInt 2)]]) = "x + 2 * y".
Proof. vm_compute. reflexivity. Qed.

Example str_pow_of_sum :
  str (EOp Pow_cls [EOp Add_cls [ESymbol "x"; ENumber (NInt (-12))]; ENumber (NInt 2)])
  = "(x + -12) ^ 2".
Proof. vm_compute. reflexivity. Qed.

Lemma string_app_cons a (s t : string) : String a s +:+ t = String a (s +:+ t).
Proof. reflexivity. Qed.

Lemma string_length_app (s t : string) :
  String.length (s +:+ t) = String.length s + String.length t.
Proof.
  induction s as [|a s IH]; [done|].
  rewrite string_app_cons. simpl. by rewrite IH.
Qed.

(** The inherited renderer parenthesizes an operand exactly when it is an
    operator of strictly lower precedence. *)
Lemma Operator_part_parenthesized p (o : expr) (s : string) :
  Operator_part p (o, s) = "(" +:+ s +:+ ")" ↔ parenthesized p o = true.
Proof.
  unfold Operator_part; simpl. destruct (parenthesized p o); split; try done.
  intros Heq. apply (f_equal String.length) in Heq.
  rewrite !string_length_app in Heq. simpl in Heq. lia.
Qed.

(** C1, as stated: [Mul.__str__] overrides the inherited renderer and joins
    the plain renderings of its operands, numbers first.  The
    lower-precedence [Add] operand of
    [Mul(Add(Symbol("x"), Symbol("y")), Number(2))] is not parenthesized and
    the text is ["2 * x + y"], not ["(x + y) * 2"]. *)
Lemma Mul_str_no_parentheses :
  let e := EOp Mul_cls [EOp Add_cls [ESymbol "x"; ESymbol "y"]; ENumber (NInt 2)] in
  parenthesized (precedence e) (EOp Add_cls [ESymbol "x"; ESymbol "y"]) = true ∧
  str e = "2 * x + y" ∧
  str e ≠ "(x + y) * 2".
Proof. vm_compute. repeat split; discriminate. Qed.

Lemma parenthesized_iff p o :
  parenthesized p o = true ↔
  isinstance_Operator o = true ∧ prec_ltb (precedence o) p = true.
Proof. unfold parenthesized. apply andb_true_iff. Qed.

(** C1, amended: the text of an operator node other than a [Mul] is its
    operands' texts joined by the operator's separator, where an operand's
    own rendering is parenthesized if and only if the operand is an operator
    of strictly lower precedence.  The text of a [Mul] is its [Number]
    operands' texts followed by its other operands' texts, joined by
    [" * "]. *)
Theorem Operator_str_parenthesizes c operands :
  c ≠ Mul_cls →
  (∃ parts,
     str (EOp c operands) = String.concat (separator c) parts ∧
     Forall2 (λ o part,
                (part = "(" +:+ str o +:+ ")" ↔
                 isinstance_Operator o = true ∧
                 prec_ltb (precedence o) (class_precedence c) = true) ∧
                (part = "(" +:+ str o +:+ ")" ∨ part = str o))
       operands parts) ∧
  (∃ parts,
     str (EOp Mul_cls operands) = String.concat " * " parts ∧
     Forall2 (λ o part, part = "(" +:+ str o +:+ ")" ∨ part = str o)
       (List.filter isinstance_Number operands ++
        List.filter (λ o, negb (isinstance_Number o)) operands)
       parts).
Proof.
  intros Hc. split.
  - eexists. split; [by apply str_Operator|].
    apply Forall2_fmap_r, Forall_Forall2_diag, Forall_forall. intros o _.
    unfold compose. cbv beta. rewrite <- parenthesized_iff.
    pose proof (Operator_part_parenthesized (class_precedence c) o (str o)) as Hpart.
    unfold Operator_part in Hpart. simpl in Hpart.
    split; [exact Hpart|].
    destruct (parenthesized (class_precedence c) o); [by left|by right].
  - eexists. split; [by apply str_Mul|].
    apply Forall2_fmap_r, Forall_Forall2_diag, Forall_forall. intros o _. by right.
Qed.

Lemma Operator_str_parenthesizes_witness :
  ∃ parts,
    str (EOp Pow_cls [EOp Add_cls [ESymbol "x"; ESymbol "y"]; ENumber (NInt 2)])
    = String.concat " ^ " parts ∧
    Forall2 (λ o part,
               (part = "(" +:+ str o +:+ ")" ↔
                isinstance_Operator o = true ∧
                prec_ltb (precedence o) (Fin 3) = true) ∧
               (part = "(" +:+ str o +:+ ")" ∨ part = str o))
      [EOp Add_cls [ESymbol "x"; ESymbol "y"]; ENumber (NInt 2)] parts.
Proof.
  exact (proj1 (Operator_str_parenthesizes Pow_cls
                  [EOp Add_cls [ESymbol "x"; ESymbol "y"]; ENumber (NInt 2)]
                  ltac:(discriminate))).
Defined.

Lemma concat_same_precedence c operands :
  Forall (λ o, precedence o = class_precedence c) operands →
  map (λ o, if parenthesized (class_precedence c) o
            then "(" +:+ str o +:+ ")" else str o) operands = map str operands.
Proof.
  intros Hall. apply map_ext_Forall. eapply Forall_impl; [exact Hall|].
  intros o Ho. simpl. unfold parenthesized. rewrite Ho.
  assert (prec_ltb (class_precedence c) (class_precedence c) = false) as ->
    by (destruct c; reflexivity).
  by rewrite andb_false_r.
Qed.

Lemma filter_none_Number operands :
  Forall (λ o, isinstance_Number o = false) operands →
  List.filter isinstance_Number operands = [] ∧
  List.filter (λ o, negb (isinstance_Number o)) operands = operands.
Proof.
  induction 1 as [|o l Ho _ [IH1 IH2]]; simpl; [done|].
  rewrite Ho. simpl. by rewrite IH1, IH2.
Qed.

Lemma Sub_left_nested_neq (a b c : expr) :
  EOp Sub_cls [EOp Sub_cls [a; b]; c] ≠ EOp Sub_cls [a; EOp Sub_cls [b; c]].
Proof.
  intros Heq. injection Heq as Ha _.
  apply (f_equal expr_size) in Ha. simpl in Ha. lia.
Qed.

Lemma string_app_assoc (s t u : string) : (s +:+ t) +:+ u = s +:+ t +:+ u.
Proof.
  induction s as [|a s IH]; [done|].
  by rewrite !string_app_cons, IH.
Qed.

Lemma str_Sub_binary (x y : expr) :
  str (EOp Sub_cls [x; y]) = Sub_operand x +:+ " - " +:+ Sub_operand y.
Proof. by rewrite str_Operator. Qed.

Lemma Sub_operand_Sub operands :
  Sub_operand (EOp Sub_cls operands) = str (EOp Sub_cls operands).
Proof. reflexivity. Qed.

(** C9: an operand whose precedence equals its parent's is not
    parenthesized: when all operands of an operator have the operator's own
    precedence, the text is the plain renderings joined by the operator's
    separator.  Hence [Sub(Sub(a, b), c)] and [Sub(a, Sub(b, c))], two
    different trees, render to the same text. *)
Theorem equal_precedence_never_parenthesized p operands a b c :
  Forall (λ o, precedence o = class_precedence p) operands →
  Forall (λ o, parenthesized (class_precedence p) o = false) operands ∧
  str (EOp p operands) = String.concat (separator p) (map str operands) ∧
  str (EOp Sub_cls [EOp Sub_cls [a; b]; c]) = str (EOp Sub_cls [a; EOp Sub_cls [b; c]]) ∧
  EOp Sub_cls [EOp Sub_cls [a; b]; c] ≠ EOp Sub_cls [a; EOp Sub_cls [b; c]].
Proof.
  intros Hall. split; [|split; [|split]].
  - eapply Forall_impl; [exact Hall|]. intros o Ho. simpl.
    unfold parenthesized. rewrite Ho.
    destruct p; simpl; by rewrite andb_false_r.
  - destruct (decide (p = Mul_cls)) as [->|Hp].
    + rewrite str_Mul.
      destruct (filter_none_Number operands) as [-> ->]; [|done].
      eapply Forall_impl; [exact Hall|]. intros [] Ho; done.
    + rewrite str_Operator by done. by rewrite concat_same_precedence.
  - rewrite (str_Sub_binary (EOp Sub_cls [a; b]) c), (str_Sub_binary a (EOp Sub_cls [b; c])).
    rewrite !Sub_operand_Sub, !str_Sub_binary.
    by rewrite !string_app_assoc.
  - apply Sub_left_nested_neq.
Qed.

Lemma equal_precedence_never_parenthesized_witness :
  str (EOp Sub_cls [EOp Add_cls [ESymbol "a"; ESymbol "b"]; EOp Sub_cls [ESymbol "c"; ESymbol "d"]])
  = String.concat " - " [ "a + b"; "c - d" ].
Proof.
  pose proof (equal_precedence_never_parenthesized Sub_cls
    [EOp Add_cls [ESymbol "a"; ESymbol "b"]; EOp Sub_cls [ESymbol "c"; ESymbol "d"]]
    (ESymbol "a") (ESymbol "b") (ESymbol "c")) as H.
  destruct H as (_ & H & _).
  - repeat constructor.
  - exact H.
Defined.

(** ** Node model and combinators *)

Lemma Operator__init___nonempty c operands :
  operands ≠ [] → Operator__init__ c operands = Ok (EOp c operands).
Proof. by destruct operands. Qed.

(** C7: constructors validate their arguments: an operator without operands,
    a [Number] of a non-numeric value and a [Symbol] of a non-string value
    raise [ValueError]; with valid arguments the node is built. *)
Theorem constructors_validate c (v w : pyobj) operands n s :
  isinstance_numeric v = false →
  isinstance_str w = false →
  operands ≠ [] →
  Operator__init__ c [] = Err (ValueError "Operators must have at least one operand") ∧
  Number v = Err (ValueError "Number value must be numeric") ∧
  Symbol w = Err (ValueError "Symbol value must be a string") ∧
  raises (Operator__init__ c []) ValueError_cls ∧
  raises (Number v) ValueError_cls ∧
  raises (Symbol w) ValueError_cls ∧
  Operator__init__ c operands = Ok (EOp c operands) ∧
  Number (Val (PyNum n)) = Ok (ENumber n) ∧
  Symbol (Val (PyStr s)) = Ok (ESymbol s).
Proof.
  intros Hv Hw Hops.
  assert (Number v = Err (ValueError "Number value must be numeric")) as HN
    by (by destruct v as [|[| | |]]).
  assert (Symbol w = Err (ValueError "Symbol value must be a string")) as HS
    by (by destruct w as [|[| | |]]).
  rewrite HN, HS.
  repeat split; try reflexivity; try (by eexists).
  by apply Operator__init___nonempty.
Qed.

Lemma constructors_validate_witness :
  raises (Number (Val (PyStr "x"))) ValueError_cls ∧
  raises (Symbol (Val (PyNum (NInt 5)))) ValueError_cls ∧
  Add [ESymbol "x"; ESymbol "y"] = Ok (EOp Add_cls [ESymbol "x"; ESymbol "y"]).
Proof.
  destruct (constructors_validate Add_cls (Val (PyStr "x")) (Val (PyNum (NInt 5)))
              [ESymbol "x"; ESymbol "y"] (NInt 0) "x")
    as (_ & _ & _ & _ & HN & HS & HO & _); [reflexivity | reflexivity | discriminate |].
  exact (conj HN (conj HS HO)).
Defined.

(** C6: an infix operator applied to an expression and a numeric literal
    wraps the literal in a [Number]; the reflected subtraction, division and
    power put the literal first. *)
Theorem literal_wrapped_reflected_order (e : expr) (n : number) :
  let lit := Val (PyNum n) in
  __add__ e lit = Ok (EOp Add_cls [e; ENumber n]) ∧
  __sub__ e lit = Ok (EOp Sub_cls [e; ENumber n]) ∧
  __mul__ e lit = Ok (EOp Mul_cls [e; ENumber n]) ∧
  __truediv__ e lit = Ok (EOp Div_cls [e; ENumber n]) ∧
  __pow__ e lit = Ok (EOp Pow_cls [e; ENumber n]) ∧
  __radd__ e lit = Ok (EOp Add_cls [e; ENumber n]) ∧
  __rmul__ e lit = Ok (EOp Mul_cls [e; ENumber n]) ∧
  __rsub__ e lit = Ok (EOp Sub_cls [ENumber n; e]) ∧
  __rtruediv__ e lit = Ok (EOp Div_cls [ENumber n; e]) ∧
  __rpow__ e lit = Ok (EOp Pow_cls [ENumber n; e]).
Proof. repeat split. Qed.

(** Two expressions are combined as they are. *)
Lemma combine_expressions (e e' : expr) :
  __add__ e (Obj e') = Ok (EOp Add_cls [e; e']) ∧
  __sub__ e (Obj e') = Ok (EOp Sub_cls [e; e']) ∧
  __rsub__ e (Obj e') = Ok (EOp Sub_cls [e'; e]).
Proof. repeat split. Qed.

(** C10: combining an expression with a value that is neither an expression
    nor numeric raises the [ValueError] of [Number.__init__], in every infix
    method and every reflected one. *)
Theorem non_numeric_operand_ValueError (e : expr) (v : pyobj) :
  isinstance_Expression v = false →
  isinstance_numeric v = false →
  Forall (λ method : expr → pyobj → result expr,
            method e v = Err (ValueError "Number value must be numeric") ∧
            raises (method e v) ValueError_cls)
    [__add__; __sub__; __mul__; __truediv__; __pow__;
     __radd__; __rsub__; __rmul__; __rtruediv__; __rpow__].
Proof.
  intros He Hv.
  assert (as_Expression v = Err (ValueError "Number value must be numeric")) as Hw
    by (by destruct v as [|[| | |]]).
  repeat constructor;
    unfold __radd__, __rmul__, __add__, __sub__, __mul__, __truediv__, __pow__,
      __rsub__, __rtruediv__, __rpow__;
    rewrite Hw; try reflexivity; by eexists.
Qed.

Lemma non_numeric_operand_ValueError_witness :
  __add__ (ESymbol "x") (Val (PyStr "a")) = Err (ValueError "Number value must be numeric").
Proof.
  pose proof (non_numeric_operand_ValueError (ESymbol "x") (Val (PyStr "a"))
                eq_refl eq_refl) as H.
  apply Forall_cons in H as [[H _] _]. exact H.
Defined.

(** ** Differentiation *)

Example differentiate_sum :
  differentiate (EOp Add_cls [ESymbol "x"; ESymbol "y"]) (Val (PyStr "x"))
  = Ok (EOp Add_cls [ENumber (NInt 1); ENumber (NInt 0)]).
Proof. reflexivity. Qed.

(** Dispatch falls back to the default implementation on [Sub], on a bare
    [Operator] and on a bare [Terminal]; building its message fails. *)
Lemma differentiate_unregistered var :
  (∀ operands, raises (differentiate (EOp Sub_cls operands) var) AttributeError_cls) ∧
  (∀ operands, raises (differentiate (EOp Operator_cls operands) var) AttributeError_cls) ∧
  (∀ value, raises (differentiate (ETerminal value) var) AttributeError_cls).
Proof. repeat split; intros; by eexists. Qed.

(** C2: on a node without a registered rule, here
    [Sub(Symbol("x"), Number(1))], the default implementation of
    [differentiate] does not raise [NotImplementedError]: evaluating its
    message raises [AttributeError]. *)
Theorem differentiate_default_AttributeError :
  let e := EOp Sub_cls [ESymbol "x"; ENumber (NInt 1)] in
  differentiate e (Val (PyStr "x"))
  = Err (AttributeError "type object 'Sub' has no attribute '_name_'") ∧
  ¬ raises (differentiate e (Val (PyStr "x"))) NotImplementedError_cls.
Proof.
  split; [reflexivity|].
  intros (x & Hx & Hc). simpl in Hx. injection Hx as <-. discriminate.
Qed.

(** The power rule on a constant exponent: the new exponent is the unevaluated
    difference [Sub(exponent, Number(1))]. *)
Lemma differentiate_Pow_Number base n var :
  differentiate (EOp Pow_cls [base; ENumber n]) var =
  db ← differentiate base var;
  Ok (EOp Mul_cls
        [EOp Mul_cls [ENumber n;
                      EOp Pow_cls [base; EOp Sub_cls [ENumber n; ENumber (NInt 1)]]];
         db]).
Proof. simpl. by destruct (differentiate base var). Qed.

(** C3, as stated: the derivative of [Pow(Symbol("x"), Number(3))] is not
    [Mul(Mul(Number(3), Pow(Symbol("x"), Number(2))), Number(1))]. *)
Lemma differentiate_Pow_not_simplified :
  differentiate (EOp Pow_cls [ESymbol "x"; ENumber (NInt 3)]) (Val (PyStr "x"))
  ≠ Ok (EOp Mul_cls
          [EOp Mul_cls [ENumber (NInt 3);
                        EOp Pow_cls [ESymbol "x"; ENumber (NInt 2)]];
           ENumber (NInt 1)]).
Proof. vm_compute. discriminate. Qed.

(** C3, amended: the derivative of [Pow(Symbol("x"), Number(3))] with respect
    to ["x"] is [Mul(Mul(Number(3), Pow(Symbol("x"), Sub(Number(3),
    Number(1)))), Number(1))]. *)
Theorem differentiate_Pow_cube :
  differentiate (EOp Pow_cls [ESymbol "x"; ENumber (NInt 3)]) (Val (PyStr "x"))
  = Ok (EOp Mul_cls
          [EOp Mul_cls [ENumber (NInt 3);
                        EOp Pow_cls [ESymbol "x";
                                     EOp Sub_cls [ENumber (NInt 3); ENumber (NInt 1)]]];
           ENumber (NInt 1)]).
Proof. reflexivity. Qed.

(** C5: the product rule unpacks exactly two operands.  On [Mul(f, g)] the
    result is [Add(Mul(d(f), g), Mul(d(g), f))]; on any other number of
    operands the unpacking raises before anything is differentiated. *)
Theorem differentiate_Mul f g df dg operands var :
  differentiate f var = Ok df →
  differentiate g var = Ok dg →
  length operands ≠ 2 →
  differentiate (EOp Mul_cls [f; g]) var
  = Ok (EOp Add_cls [EOp Mul_cls [df; g]; EOp Mul_cls [dg; f]]) ∧
  differentiate (EOp Mul_cls operands) var = Err (UnpackError 2 (length operands)) ∧
  raises (differentiate (EOp Mul_cls operands) var) ValueError_cls.
Proof.
  intros Hf Hg Hlen.
  assert (differentiate (EOp Mul_cls operands) var
          = Err (UnpackError 2 (length operands))) as Hbad
    by (by destruct operands as [|? [|? [|]]]).
  split; [|split; [done|by eexists]].
  simpl. rewrite Hf. simpl. by rewrite Hg.
Qed.

Lemma differentiate_Mul_witness :
  differentiate (EOp Mul_cls [ESymbol "x"; ESymbol "y"]) (Val (PyStr "x"))
  = Ok (EOp Add_cls [EOp Mul_cls [ENumber (NInt 1); ESymbol "y"];
                     EOp Mul_cls [ENumber (NInt 0); ESymbol "x"]]) ∧
  raises (differentiate (EOp Mul_cls [ESymbol "x"; ESymbol "y"; ESymbol "z"])
            (Val (PyStr "x"))) ValueError_cls.
Proof.
  destruct (differentiate_Mul (ESymbol "x") (ESymbol "y")
              (ENumber (NInt 1)) (ENumber (NInt 0))
              [ESymbol "x"; ESymbol "y"; ESymbol "z"] (Val (PyStr "x")))
    as (H1 & _ & H2); [reflexivity | reflexivity | simpl; lia |].
  exact (conj H1 H2).
Defined.

(** C8: on [Pow(base, exponent)] with an exponent that is not a [Number],
    [differentiate] raises [NotImplementedError("Variable exponents are not
    yet supported.")], whatever the variable. *)
Theorem differentiate_Pow_variable_exponent base exponent var :
  isinstance_Number exponent = false →
  differentiate (EOp Pow_cls [base; exponent]) var
  = Err (NotImplementedError "Variable exponents are not yet supported.") ∧
  raises (differentiate (EOp Pow_cls [base; exponent]) var) NotImplementedError_cls.
Proof.
  intros Hexp.
  assert (differentiate (EOp Pow_cls [base; exponent]) var
          = Err (NotImplementedError "Variable exponents are not yet supported.")) as H
    by (simpl; by rewrite Hexp).
  split; [done|]. rewrite H. by eexists.
Qed.

Lemma differentiate_Pow_variable_exponent_witness :
  raises (differentiate (EOp Pow_cls [ESymbol "x"; ESymbol "n"]) (Val (PyStr "x")))
    NotImplementedError_cls.
Proof.
  exact (proj2 (differentiate_Pow_variable_exponent (ESymbol "x") (ESymbol "n")
                  (Val (PyStr "x")) eq_refl)).
Defined.

(** ** Traversal engine *)

Section postvisitor_correct.
Context {R : Type}.
Variable h : heap.
Variable fn : addr → object → list R → R.
Hypothesis h_acyclic : acyclic h.

Lemma push_children_unvisited (v : gmap addr R) cs stk :
  push_children v cs stk = pending (unvisited v cs) ++ stk.
Proof.
  unfold push_children. induction cs as [|c cs IH]; [done|].
  rewrite reverse_cons, foldl_app. simpl. rewrite IH.
  by destruct (v !! c).
Qed.

Lemma unvisited_elem (v : gmap addr R) cs c :
  c ∈ unvisited v cs ↔ c ∈ cs ∧ v !! c = None.
Proof.
  induction cs as [|c' cs IH]; simpl.
  - split; [by intros ?%elem_of_nil | by intros [?%elem_of_nil _]].
  - destruct (v !! c') eqn:Hc'.
    + rewrite IH, elem_of_cons. split; [tauto|].
      intros [[->|?] ?]; [congruence|tauto].
    + rewrite !elem_of_cons, IH. split; [|tauto].
      intros [->|[? ?]]; tauto.
Qed.

Lemma loop_step fuel (v : gmap addr R) node processed rest l :
  loop h fn (S fuel) (State v ((node, processed) :: rest) l) =
  match iteration h fn (State v ((node, processed) :: rest) l) node processed rest with
  | Ok st' => loop h fn fuel st'
  | Err e => Some (Err e)
  end.
Proof. reflexivity. Qed.

Lemma reach_le a x : reach h a x → x ≤ a.
Proof.
  induction 1 as [|a c x Hc _ IH]; [done|].
  pose proof (h_acyclic a) as Ha. rewrite Forall_forall in Ha.
  specialize (Ha c Hc). simpl in Ha. lia.
Qed.

Lemma inv_empty : inv h fn ∅ [].
Proof.
  split.
  - intros a r Ha. by rewrite lookup_empty in Ha.
  - intros a c [r Ha]. by rewrite lookup_empty in Ha.
  - constructor.
  - intros a. rewrite lookup_empty. split; [by intros ?%elem_of_nil | by intros [? ?]].
Qed.

Lemma inv_reach v l a x :
  inv h fn v l → is_Some (v !! a) → reach h a x → is_Some (v !! x).
Proof.
  intros Hinv Ha Hr. induction Hr as [|a c x Hc _ IH]; [done|].
  apply IH. by eapply inv_closed.
Qed.

Lemma subscript_Some (v : gmap addr R) c r :
  v !! c = Some r → subscript v c = Ok r.
Proof. unfold subscript. by intros ->. Qed.

Lemma traverse_subscript (v : gmap addr R) cs :
  (∀ c, c ∈ cs → is_Some (v !! c)) →
  ∃ rs, traverse (subscript v) cs = Ok rs ∧ Forall2 (λ c r, v !! c = Some r) cs rs.
Proof.
  induction cs as [|c cs IH]; intros Hall.
  - exists []. by split; [|constructor].
  - destruct (Hall c) as [r Hr]; [by left|].
    destruct IH as (rs & Hrs & Hall2); [intros; apply Hall; by right|].
    exists (r :: rs). split; [|by constructor].
    simpl. rewrite (subscript_Some _ _ _ Hr). simpl. by rewrite Hrs.
Qed.

(** Applying [fn] to a node whose operands are all in the memo. *)
Lemma inv_insert v l c rs :
  inv h fn v l → v !! c = None →
  Forall2 (λ o r, v !! o = Some r) (operands (h c)) rs →
  inv h fn (<[c := fn c (h c) rs]> v) (l ++ [c]).
Proof.
  intros Hinv Hc Hrs. split.
  - intros a r. rewrite lookup_insert. case_decide as Hac.
    + subst a. intros [= <-]. constructor.
      eapply Forall2_impl; [exact Hrs|]. intros o r Ho. simpl in Ho.
      by eapply inv_values.
    + by apply inv_values with l.
  - intros a o Ha Ho.
    destruct (decide (c = o)) as [->|Hco]; [rewrite lookup_insert_eq; by eexists|].
    rewrite lookup_insert_ne by done.
    destruct (decide (c = a)) as [->|Hca].
    + rewrite Forall2_lookup in Hrs.
      apply list_elem_of_lookup in Ho as [i Hi].
      specialize (Hrs i). rewrite Hi in Hrs. inversion Hrs; subst. by eexists.
    + rewrite lookup_insert_ne in Ha by done. by eapply inv_closed.
  - apply NoDup_app. split; [by eapply inv_nodup|]. split; [|apply NoDup_singleton].
    intros x Hx ->%list_elem_of_singleton.
    apply (inv_calls _ _ _ _ Hinv) in Hx as [r Hr]. congruence.
  - intros a. rewrite elem_of_app, list_elem_of_singleton, lookup_insert, (inv_calls _ _ _ _ Hinv).
    case_decide; [|split; [intros [|]; [done|congruence]|by left]].
    subst. split; [by eexists|by right].
Qed.
Lemma runs_to_nil rest v l : inv h fn v l → runs_to h fn [] rest v l.
Proof.
  intros Hinv. exists 0, v, l. split; [done|]. split; [done|].
  intros x. split; [by left|]. intros [?|(c & Hc%elem_of_nil & _)]; done.
Qed.

(** An entry whose node is already in the memo is dropped. *)
Lemma runs_to_visited c cs rest v l :
  inv h fn v l → is_Some (v !! c) →
  runs_to h fn cs rest v l → runs_to h fn (c :: cs) rest v l.
Proof.
  intros Hinv [r Hc] (k & v' & l' & Hrun & Hinv' & Hdom).
  exists (S k), v', l'. split; [|split; [done|]].
  - intros fuel. rewrite <- Hrun.
    change (S k + fuel) with (S (k + fuel)).
    change (pending (c :: cs) ++ rest) with ((c, false) :: pending cs ++ rest).
    rewrite loop_step. unfold iteration. simpl. by rewrite Hc.
  - intros x. rewrite Hdom. split.
    + intros [?|(c' & Hc' & Hr)]; [by left|].
      right. exists c'. split; [by right|done].
    + intros [?|(c' & Hc' & Hr)]; [by left|].
      apply elem_of_cons in Hc' as [->|Hc'].
      * left. eapply inv_reach; [done| |done]. by eexists.
      * right. by exists c'.
Qed.

(** A node that is not in the memo: its pending operands are run, then
    [fn] is applied, then the rest of the block is run. *)
Lemma runs_to_fresh c cs rest v l :
  inv h fn v l → v !! c = None →
  (∀ rest', runs_to h fn (unvisited v (operands (h c))) rest' v l) →
  (∀ v' l', inv h fn v' l' → runs_to h fn cs rest v' l') →
  runs_to h fn (c :: cs) rest v l.
Proof.
  intros Hinv Hc Hops Hcs.
  destruct (Hops ((c, true) :: pending cs ++ rest))
    as (k1 & v1 & l1 & Hrun1 & Hinv1 & Hdom1).
  assert (v1 !! c = None) as Hc1.
  { apply eq_None_not_Some. rewrite Hdom1.
    intros [[r Hr]|(o & [Ho _]%unvisited_elem & Hreach)]; [congruence|].
    apply reach_le in Hreach.
    pose proof (h_acyclic c) as Hlt. rewrite Forall_forall in Hlt.
    specialize (Hlt o Ho). simpl in Hlt. lia. }
  assert (∀ o, o ∈ operands (h c) → is_Some (v1 !! o)) as Hall.
  { intros o Ho. rewrite Hdom1.
    destruct (v !! o) eqn:Hvo; [left; by eexists|].
    right. exists o. split; [|constructor]. by apply unvisited_elem. }
  destruct (traverse_subscript v1 _ Hall) as (rs & Hrs & Hrs2).
  pose proof (inv_insert v1 l1 c rs Hinv1 Hc1 Hrs2) as Hinv2.
  destruct (Hcs _ _ Hinv2) as (k3 & v3 & l3 & Hrun3 & Hinv3 & Hdom3).
  exists (S (k1 + S k3)), v3, l3. split; [|split; [done|]].
  - intros fuel. rewrite <- Hrun3.
    replace (S (k1 + S k3) + fuel) with (S (k1 + S (k3 + fuel))) by lia.
    change (pending (c :: cs) ++ rest) with ((c, false) :: pending cs ++ rest).
    rewrite loop_step. unfold iteration. simpl. rewrite Hc.
    rewrite push_children_unvisited, Hrun1.
    rewrite loop_step. unfold iteration. simpl. rewrite Hc1, Hrs. done.
  - intros x. rewrite Hdom3.
    assert (is_Some (<[c:=fn c (h c) rs]> v1 !! x)
            ↔ is_Some (v !! x) ∨ reach h c x) as ->.
    { destruct (decide (c = x)) as [->|Hcx].
      - rewrite lookup_insert_eq. split; [right; constructor|by eexists].
      - rewrite lookup_insert_ne, Hdom1 by done. split.
        + intros [?|(o & [Ho _]%unvisited_elem & Hr)]; [by left|].
          right. by eapply reach_operand.
        + intros [?|Hr]; [by left|].
          inversion Hr as [|? o ? Ho Hr']; subst; [done|].
          destruct (v !! o) eqn:Hvo.
          * left. eapply inv_reach; [done| |done]. by eexists.
          * right. exists o. split; [by apply unvisited_elem|done]. }
    split.
    + intros [[?|?]|(c' & Hc' & Hr)]; [by left| |].
      * right. exists c. split; [by left|done].
      * right. exists c'. split; [by right|done].
    + intros [?|(c' & Hc' & Hr)]; [by left; left|].
      apply elem_of_cons in Hc' as [->|Hc']; [by left; right|].
      right. by exists c'.
Qed.

Lemma run_pending n : ∀ cs rest v l,
  Forall (λ c, c < n) cs → inv h fn v l → runs_to h fn cs rest v l.
Proof.
  induction n as [|m IHm]; intros cs.
  - destruct cs as [|c cs]; intros rest v l Hcs Hinv; [by apply runs_to_nil|].
    apply Forall_cons in Hcs as [Hc _]. lia.
  - induction cs as [|c cs IHcs]; intros rest v l Hcs Hinv; [by apply runs_to_nil|].
    apply Forall_cons in Hcs as [Hc Hcs].
    destruct (v !! c) as [r|] eqn:Hvc.
    + apply runs_to_visited; [done|by eexists|by apply IHcs].
    + apply runs_to_fresh; [done|done| |].
      * intros rest'. apply IHm; [|done].
        apply Forall_forall. intros o [Ho _]%unvisited_elem.
        pose proof (h_acyclic c) as Hlt. rewrite Forall_forall in Hlt.
        specialize (Hlt o Ho). simpl in Hlt. lia.
      * intros v' l' Hinv'. by apply IHcs.
Qed.

(** The value of a node does not depend on how it is computed. *)
Lemma evaluates_fun a : ∀ r1 r2,
  evaluates h fn a r1 → evaluates h fn a r2 → r1 = r2.
Proof.
  induction (lt_wf a) as [a _ IH]. intros r1 r2 H1 H2.
  inversion H1 as [? rs1 Hrs1]; subst. inversion H2 as [? rs2 Hrs2]; subst.
  f_equal.
  pose proof (h_acyclic a) as Hlt.
  clear H1 H2. revert rs2 Hrs2.
  induction Hrs1 as [|o r os rs Ho Hos IHos]; intros rs2 Hrs2.
  - by inversion Hrs2.
  - inversion Hrs2 as [|? r' ? rs' Ho' Hos']; subst.
    apply Forall_cons in Hlt as [Hlt1 Hlt2].
    f_equal; [by eapply IH|by apply IHos].
Qed.
End postvisitor_correct.

(** C4: [postvisitor] terminates on every expression and returns the value
    of the root; [fn] is applied once to each node reachable from the root,
    nodes being told apart by identity, and to nothing else. *)
Theorem postvisitor_once_per_node {R : Type} (h : heap)
    (fn : addr → object → list R → R) (expr : addr) :
  acyclic h →
  ∃ k r l,
    (∀ fuel, k ≤ fuel → postvisitor h fn fuel expr = Some (Ok (r, l))) ∧
    evaluates h fn expr r ∧
    NoDup l ∧
    (∀ a, a ∈ l ↔ reach h expr a).
Proof.
  intros Hh.
  destruct (run_pending h fn Hh (S expr) [expr] [] ∅ [])
    as (k & v & l & Hrun & Hinv & Hdom).
  { repeat constructor. }
  { apply inv_empty. }
  assert (∀ a, is_Some (v !! a) ↔ reach h expr a) as Hreach.
  { intros a. rewrite Hdom, lookup_empty. split.
    - intros [[? ?]|(c & ->%list_elem_of_singleton & Hr)]; done.
    - intros Hr. right. exists expr. split; [by left|done]. }
  destruct (proj2 (Hreach expr)) as [r Hr]; [constructor|].
  exists k, r, l. split; [|split; [|split]].
  - intros fuel Hfuel. unfold postvisitor.
    replace fuel with (k + (fuel - k)) by lia.
    change [(expr, false)] with (pending [expr] ++ []).
    rewrite Hrun. destruct (fuel - k); simpl; unfold subscript; by rewrite Hr.
  - by eapply inv_values.
  - by eapply inv_nodup.
  - intros a. by rewrite (inv_calls _ _ _ _ Hinv), Hreach.
Qed.

Example postvisitor_shared :
  postvisitor shared_heap tree_size 5 1 = Some (Ok (3, [0; 1])).
Proof. vm_compute. reflexivity. Qed.

Example postvisitor_distinct :
  postvisitor distinct_heap tree_size 6 2 = Some (Ok (3, [0; 1; 2])).
Proof. vm_compute. reflexivity. Qed.

Example postvisitor_out_of_fuel :
  postvisitor shared_heap tree_size 4 1 = None.
Proof. vm_compute. reflexivity. Qed.

Lemma postvisitor_once_per_node_witness :
  ∃ k r l,
    (∀ fuel, k ≤ fuel → postvisitor shared_heap tree_size fuel 1 = Some (Ok (r, l))) ∧
    evaluates shared_heap tree_size 1 r ∧
    NoDup l ∧
    (∀ a, a ∈ l ↔ reach shared_heap 1 a).
Proof.
  apply postvisitor_once_per_node.
  intros [|[|a]]; simpl; repeat constructor.
Defined.

(** * Further properties *)

(** Induction on expression trees, with the hypothesis on every operand. *)
Lemma expr_nested_ind (P : expr → Prop) :
  (∀ n, P (ENumber n)) →
  (∀ s, P (ESymbol s)) →
  (∀ v, P (ETerminal v)) →
  (∀ c operands, Forall P operands → P (EOp c operands)) →
  ∀ e, P e.
Proof.
  intros HN HS HT HO.
  fix IH 1. intros [n|s|v|c operands]; [apply HN|apply HS|apply HT|].
  apply HO. induction operands as [|o operands IHops]; constructor; [apply IH|exact IHops].
Qed.

Lemma traverse_Ok {A B} (f : A → result B) l ys :
  traverse f l = Ok ys ↔ Forall2 (λ x y, f x = Ok y) l ys.
Proof.
  revert ys. induction l as [|x l IH]; intros ys; simpl.
  - split; [intros [= <-]; constructor|by inversion 1].
  - destruct (f x) as [y|e] eqn:Hx; simpl.
    + destruct (traverse f l) as [ys'|e] eqn:Hl; simpl.
      * split.
        -- intros [= <-]. constructor; [done|by apply IH].
        -- inversion 1 as [|? y' ? ys'' Hy Hys]; subst.
           apply IH in Hys. congruence.
      * split; [done|]. inversion 1 as [|? y' ? ys'' Hy Hys]; subst.
        by apply IH in Hys.
    + split; [done|]. inversion 1; congruence.
Qed.

Lemma traverse_first_Err {A B} (f : A → result B) pre x post e :
  Forall (λ x, ∃ y, f x = Ok y) pre → f x = Err e →
  traverse f (pre ++ x :: post) = Err e.
Proof.
  intros Hpre Hx. induction Hpre as [|x' pre [y Hy] _ IH]; simpl.
  - by rewrite Hx.
  - by rewrite Hy, IH.
Qed.

(** ** Differentiation *)

(** X1: the quotient rule unpacks exactly two operands: on [Div(f, g)] the
    result is [Div(Sub(Mul(d(f), g), Mul(d(g), f)), Pow(g, Number(2)))]; a
    [Div] or a [Pow] with any other number of operands raises the unpacking
    [ValueError]. *)
Theorem differentiate_Div f g df dg operands var :
  differentiate f var = Ok df →
  differentiate g var = Ok dg →
  length operands ≠ 2 →
  differentiate (EOp Div_cls [f; g]) var
  = Ok (EOp Div_cls
          [EOp Sub_cls [EOp Mul_cls [df; g]; EOp Mul_cls [dg; f]];
           EOp Pow_cls [g; ENumber (NInt 2)]]) ∧
  differentiate (EOp Div_cls operands) var = Err (UnpackError 2 (length operands)) ∧
  differentiate (EOp Pow_cls operands) var = Err (UnpackError 2 (length operands)).
Proof.
  intros Hf Hg Hlen. split; [|split].
  - simpl. rewrite Hf. simpl. by rewrite Hg.
  - by destruct operands as [|? [|? [|]]].
  - by destruct operands as [|? [|? [|]]].
Qed.

Lemma differentiate_Div_witness :
  differentiate (EOp Div_cls [ESymbol "x"; ESymbol "y"]) (Val (PyStr "x"))
  = Ok (EOp Div_cls
          [EOp Sub_cls [EOp Mul_cls [ENumber (NInt 1); ESymbol "y"];
                        EOp Mul_cls [ENumber (NInt 0); ESymbol "x"]];
           EOp Pow_cls [ESymbol "y"; ENumber (NInt 2)]]) ∧
  differentiate (EOp Pow_cls [ESymbol "x"]) (Val (PyStr "x")) = Err (UnpackError 2 1).
Proof.
  destruct (differentiate_Div (ESymbol "x") (ESymbol "y")
              (ENumber (NInt 1)) (ENumber (NInt 0)) [ESymbol "x"] (Val (PyStr "x")))
    as (H1 & _ & H2); [reflexivity | reflexivity | simpl; lia |].
  exact (conj H1 H2).
Defined.

(** X2: the sum rule is n-ary: when every operand of a non-empty [Add] has
    a derivative, the derivative of the sum is the [Add] of the operands'
    derivatives, in order and as many. *)
Theorem differentiate_Add operands ds var :
  operands ≠ [] →
  Forall2 (λ o d, differentiate o var = Ok d) operands ds →
  differentiate (EOp Add_cls operands) var = Ok (EOp Add_cls ds) ∧
  length ds = length operands.
Proof.
  intros Hne Hall. split; [|symmetry; by eapply Forall2_length].
  assert (ds ≠ []) as Hds.
  { intros ->. apply Forall2_nil_inv_r in Hall. done. }
  simpl. apply traverse_Ok in Hall.
  change (traverse (λ op, differentiate op var) operands = Ok ds) in Hall.
  rewrite Hall. simpl. by apply Operator__init___nonempty.
Qed.

Lemma differentiate_Add_witness :
  differentiate (EOp Add_cls [ESymbol "x"; ENumber (NInt 4); ESymbol "y"]) (Val (PyStr "x"))
  = Ok (EOp Add_cls [ENumber (NInt 1); ENumber (NInt 0); ENumber (NInt 0)]).
Proof.
  refine (proj1 (differentiate_Add [ESymbol "x"; ENumber (NInt 4); ESymbol "y"]
                   [ENumber (NInt 1); ENumber (NInt 0); ENumber (NInt 0)]
                   (Val (PyStr "x")) _ _)).
  - discriminate.
  - repeat constructor.
Defined.

(** X3: the operands of an [Add] are differentiated from left to right and
    the exception of the first operand that fails is the exception of the
    whole call. *)
Theorem differentiate_Add_first_error pre o post e var :
  Forall (λ o, ∃ d, differentiate o var = Ok d) pre →
  differentiate o var = Err e →
  differentiate (EOp Add_cls (pre ++ o :: post)) var = Err e.
Proof.
  intros Hpre Ho. simpl.
  by rewrite (traverse_first_Err (λ op, differentiate op var) pre o post e Hpre Ho).
Qed.

Lemma differentiate_Add_first_error_witness :
  differentiate
    (EOp Add_cls [ESymbol "x";
                  EOp Pow_cls [ESymbol "x"; ESymbol "n"];
                  EOp Sub_cls [ESymbol "x"; ESymbol "y"]])
    (Val (PyStr "x"))
  = Err (NotImplementedError "Variable exponents are not yet supported.").
Proof.
  apply (differentiate_Add_first_error [ESymbol "x"]
           (EOp Pow_cls [ESymbol "x"; ESymbol "n"])
           [EOp Sub_cls [ESymbol "x"; ESymbol "y"]]).
  - repeat constructor. by eexists.
  - reflexivity.
Defined.




(** X5: the derivative of a power with a constant exponent holds the
    exponent [Sub(exponent, Number(1))], which is not a [Number]: the
    derivative of a power can never be differentiated again, the second call
    raises [NotImplementedError]. *)
Theorem second_derivative_Pow_fails base n d var var' :
  differentiate (EOp Pow_cls [base; ENumber n]) var = Ok d →
  differentiate d var'
  = Err (NotImplementedError "Variable exponents are not yet supported.").
Proof.
  rewrite differentiate_Pow_Number.
  destruct (differentiate base var) as [db|e]; simpl; [|done].
  by intros [= <-].
Qed.

Lemma second_derivative_Pow_fails_witness :
  differentiate
    (EOp Mul_cls
       [EOp Mul_cls [ENumber (NInt 3);
                     EOp Pow_cls [ESymbol "x";
                                  EOp Sub_cls [ENumber (NInt 3); ENumber (NInt 1)]]];
        ENumber (NInt 1)])
    (Val (PyStr "x"))
  = Err (NotImplementedError "Variable exponents are not yet supported.").
Proof.
  apply (second_derivative_Pow_fails (ESymbol "x") (NInt 3) _ (Val (PyStr "x"))).
  reflexivity.
Defined.

(** X6: the derivative of a quotient has a [Sub] numerator, a kind without
    a rule: the derivative of a quotient can never be differentiated again,
    the second call ends in the [AttributeError] of the default
    implementation. *)
Theorem second_derivative_Div_fails f g d var var' :
  differentiate (EOp Div_cls [f; g]) var = Ok d →
  differentiate d var'
  = Err (AttributeError "type object 'Sub' has no attribute '_name_'").
Proof.
  simpl.
  destruct (differentiate f var) as [df|e]; simpl; [|done].
  destruct (differentiate g var) as [dg|e]; simpl; [|done].
  by intros [= <-].
Qed.

Lemma second_derivative_Div_fails_witness :
  differentiate
    (EOp Div_cls
       [EOp Sub_cls [EOp Mul_cls [ENumber (NInt 1); ESymbol "y"];
                     EOp Mul_cls [ENumber (NInt 0); ESymbol "x"]];
        EOp Pow_cls [ESymbol "y"; ENumber (NInt 2)]])
    (Val (PyStr "y"))
  = Err (AttributeError "type object 'Sub' has no attribute '_name_'").
Proof.
  apply (second_derivative_Div_fails (ESymbol "x") (ESymbol "y") _ (Val (PyStr "x"))).
  reflexivity.
Defined.

Lemma well_formed_operands ds operands var :
  Forall (λ o, ∀ d, well_formed o = true → differentiate o var = Ok d →
               well_formed d = true) operands →
  forallb well_formed operands = true →
  Forall2 (λ o d, differentiate o var = Ok d) operands ds →
  forallb well_formed ds = true.
Proof.
  intros IH Hwf Hall. revert IH Hwf.
  induction Hall as [|o d operands ds Ho _ IHall]; [done|].
  intros [IH1 IH2]%Forall_cons. simpl. rewrite !andb_true_iff.
  intros [Hwo Hwos]. split; [by eapply IH1|by apply IHall].
Qed.

(** X7: differentiation keeps the invariant of the constructors: the
    derivative of a tree in which every operator has at least one operand is
    again such a tree. *)
Theorem differentiate_well_formed e var d :
  well_formed e = true →
  differentiate e var = Ok d →
  well_formed d = true.
Proof.
  revert d. induction e as [n|s|v|c operands IH] using expr_nested_ind; intros d.
  - intros _ [= <-]. done.
  - intros _. simpl. destruct (str_eq s var); by intros [= <-].
  - done.
  - intros Hwf. simpl in Hwf. apply andb_true_iff in Hwf as [_ Hwf].
    destruct c; try done.
    + change (differentiate (EOp Add_cls operands) var)
        with (traverse (λ op, differentiate op var) operands ≫= Add).
      destruct (traverse (λ op, differentiate op var) operands) as [ds|e] eqn:Hds;
        simpl; [|done].
      unfold Add, Operator__init__.
      destruct (length ds <? 1) eqn:Hlen; [done|]. intros [= <-].
      simpl. rewrite Hlen. simpl.
      apply traverse_Ok in Hds. by eapply well_formed_operands.
    + destruct operands as [|f [|g [|]]]; try done.
      apply Forall_cons in IH as [Hf [Hg _]%Forall_cons].
      simpl in Hwf. rewrite !andb_true_iff in Hwf. destruct Hwf as (Hwf & Hwg & _).
      simpl.
      destruct (differentiate f var) as [df|] eqn:Hdf; simpl; [|done].
      destruct (differentiate g var) as [dg|] eqn:Hdg; simpl; [|done].
      intros [= <-]. simpl.
      by rewrite (Hf df), (Hg dg), Hwf, Hwg.
    + destruct operands as [|f [|g [|]]]; try done.
      apply Forall_cons in IH as [Hf [Hg _]%Forall_cons].
      simpl in Hwf. rewrite !andb_true_iff in Hwf. destruct Hwf as (Hwf & Hwg & _).
      simpl.
      destruct (differentiate f var) as [df|] eqn:Hdf; simpl; [|done].
      destruct (differentiate g var) as [dg|] eqn:Hdg; simpl; [|done].
      intros [= <-]. simpl.
      by rewrite (Hf df), (Hg dg), Hwf, Hwg.
    + destruct operands as [|base [|exponent [|]]]; try done.
      apply Forall_cons in IH as [Hb _].
      simpl in Hwf. rewrite !andb_true_iff in Hwf. destruct Hwf as (Hwb & Hwe & _).
      simpl. destruct (isinstance_Number exponent); [|done]. simpl.
      destruct (differentiate base var) as [db|] eqn:Hdb; simpl; [|done].
      intros [= <-]. simpl.
      by rewrite (Hb db), Hwb, Hwe.
Qed.

Lemma differentiate_well_formed_witness :
  well_formed
    (EOp Add_cls [EOp Mul_cls [ENumber (NInt 1); ESymbol "y"];
                  EOp Mul_cls [ENumber (NInt 0); ESymbol "x"]]) = true.
Proof.
  apply (differentiate_well_formed (EOp Mul_cls [ESymbol "x"; ESymbol "y"])
           (Val (PyStr "x"))); reflexivity.
Defined.

(** ** Renderer and combinators *)

Lemma parenthesized_bare_Operator o : parenthesized (Fin 0) o = false.
Proof.
  unfold parenthesized. destruct (precedence o) as [[|m]|]; simpl;
    by rewrite andb_false_r.
Qed.

(** X8: a bare [Operator] has no symbol and the lowest precedence: its text
    is its operands' texts joined by [" None "], none of them
    parenthesized. *)
Theorem str_bare_Operator operands :
  str (EOp Operator_cls operands) = String.concat " None " (map str operands).
Proof.
  rewrite str_Operator by done.
  change (separator Operator_cls) with " None ". f_equal.
  apply map_ext. intros o. simpl. by rewrite parenthesized_bare_Operator.
Qed.

Lemma parenthesized_terminal p o :
  isinstance_Operator o = false → parenthesized p o = false.
Proof. unfold parenthesized. by intros ->. Qed.

(** X9: terminals are never parenthesized, and an operator with a single
    operand prints no symbol: an operator of any class over one terminal
    renders exactly like that terminal. *)
Theorem str_terminal_operands c c' operands o :
  c ≠ Mul_cls →
  Forall (λ o, isinstance_Operator o = false) operands →
  isinstance_Operator o = false →
  str (EOp c operands) = String.concat (separator c) (map str operands) ∧
  str (EOp c' [o]) = str o.
Proof.
  intros Hc Hall Ho. split.
  - rewrite str_Operator by done. f_equal.
    apply map_ext_Forall. eapply Forall_impl; [exact Hall|].
    intros o' Ho'. simpl. by rewrite parenthesized_terminal.
  - destruct (decide (c' = Mul_cls)) as [->|Hc'].
    + rewrite str_Mul. simpl. by destruct (isinstance_Number o).
    + rewrite str_Operator by done. simpl. by rewrite parenthesized_terminal.
Qed.

Lemma str_terminal_operands_witness :
  str (EOp Div_cls [ESymbol "x"; ENumber (NInt 2); ESymbol "y"])
  = String.concat " / " ["x"; "2"; "y"] ∧
  str (EOp Sub_cls [ESymbol "x"]) = str (ESymbol "x").
Proof.
  apply (str_terminal_operands Div_cls Sub_cls
           [ESymbol "x"; ENumber (NInt 2); ESymbol "y"] (ESymbol "x")).
  - discriminate.
  - repeat constructor.
  - reflexivity.
Defined.



(** X11: the reordering of [Mul.__str__] is cosmetic: [Mul(f, Number(n))]
    and [Mul(Number(n), f)] have the same text, but the product rule reads
    the operands in their stored order and gives the two different
    derivatives. *)
Theorem Mul_order_cosmetic f n df var :
  isinstance_Number f = false →
  differentiate f var = Ok df →
  str (EOp Mul_cls [f; ENumber n]) = str (EOp Mul_cls [ENumber n; f]) ∧
  differentiate (EOp Mul_cls [f; ENumber n]) var
  = Ok (EOp Add_cls [EOp Mul_cls [df; ENumber n];
                     EOp Mul_cls [ENumber (NInt 0); f]]) ∧
  differentiate (EOp Mul_cls [ENumber n; f]) var
  = Ok (EOp Add_cls [EOp Mul_cls [ENumber (NInt 0); f];
                     EOp Mul_cls [df; ENumber n]]) ∧
  differentiate (EOp Mul_cls [f; ENumber n]) var
  ≠ differentiate (EOp Mul_cls [ENumber n; f]) var.
Proof.
  intros Hf Hdf.
  assert (differentiate (EOp Mul_cls [f; ENumber n]) var
          = Ok (EOp Add_cls [EOp Mul_cls [df; ENumber n];
                             EOp Mul_cls [ENumber (NInt 0); f]])) as H1
    by (simpl; by rewrite Hdf).
  assert (differentiate (EOp Mul_cls [ENumber n; f]) var
          = Ok (EOp Add_cls [EOp Mul_cls [ENumber (NInt 0); f];
                             EOp Mul_cls [df; ENumber n]])) as H2
    by (simpl; by rewrite Hdf).
  split; [|split; [done|split; [done|]]].
  - rewrite !str_Mul. simpl. by rewrite Hf.
  - rewrite H1, H2. intros [= _ <-]. done.
Qed.

Lemma Mul_order_cosmetic_witness :
  str (EOp Mul_cls [ESymbol "x"; ENumber (NInt 2)])
  = str (EOp Mul_cls [ENumber (NInt 2); ESymbol "x"]) ∧
  differentiate (EOp Mul_cls [ESymbol "x"; ENumber (NInt 2)]) (Val (PyStr "x"))
  ≠ differentiate (EOp Mul_cls [ENumber (NInt 2); ESymbol "x"]) (Val (PyStr "x")).
Proof.
  destruct (Mul_order_cosmetic (ESymbol "x") (NInt 2) (ENumber (NInt 1))
              (Val (PyStr "x")) eq_refl eq_refl) as (H1 & _ & _ & H2).
  exact (conj H1 H2).
Defined.

(** ** Traversal engine *)

Section postvisitor_more.
Context {R : Type}.
Variable h : heap.
Variable fn : addr → object → list R → R.

(** A property kept by every iteration holds when the loop ends. *)
Lemma loop_preserves (P : state R → Prop) :
  (∀ st node processed rest st',
     stack st = (node, processed) :: rest → P st →
     iteration h fn st node processed rest = Ok st' → P st') →
  ∀ fuel st st', P st → loop h fn fuel st = Some (Ok st') → P st' ∧ stack st' = [].
Proof.
  intros Hstep. induction fuel as [|fuel IH]; intros st st' HP; simpl;
    destruct (stack st) as [|[node processed] rest] eqn:Hs; try done.
  - by intros [= <-].
  - by intros [= <-].
  - destruct (iteration h fn st node processed rest) as [st1|e] eqn:Hit; [|done].
    apply IH. by eapply Hstep.
Qed.

Lemma loop_never_Err (P : state R → Prop) :
  (∀ st node processed rest st',
     stack st = (node, processed) :: rest → P st →
     iteration h fn st node processed rest = Ok st' → P st') →
  (∀ st node processed rest e,
     stack st = (node, processed) :: rest → P st →
     iteration h fn st node processed rest ≠ Err e) →
  ∀ fuel st e, P st → loop h fn fuel st ≠ Some (Err e).
Proof.
  intros Hstep Hsafe. induction fuel as [|fuel IH]; intros st e HP; simpl;
    destruct (stack st) as [|[node processed] rest] eqn:Hs; try done.
  destruct (iteration h fn st node processed rest) as [st1|e'] eqn:Hit.
  - apply IH. by eapply Hstep.
  - by eapply Hsafe in Hit.
Qed.

Lemma ready_mono (v v' : gmap addr R) stk : ∀ A A',
  (∀ c, is_Some (v !! c) ∨ c ∈ A → is_Some (v' !! c) ∨ c ∈ A') →
  ready h v A stk → ready h v' A' stk.
Proof.
  induction stk as [|[node processed] stk IH]; intros A A' Hmono; [done|].
  simpl. intros [Hops Hbelow]. split.
  - intros Hp. eapply Forall_impl; [by apply Hops|]. intros c Hc. by apply Hmono.
  - eapply IH; [|exact Hbelow].
    intros c [Hc|[->|Hc]%elem_of_cons].
    + destruct (Hmono c) as [?|?]; [by left|by left|right; by right].
    + right; by left.
    + destruct (Hmono c) as [?|?]; [by right|by left|right; by right].
Qed.

Lemma ready_pending (v : gmap addr R) us : ∀ A stk,
  ready h v (reverse us ++ A) stk → ready h v A (pending us ++ stk).
Proof.
  induction us as [|u us IH]; intros A stk; [done|].
  rewrite reverse_cons, <- app_assoc. simpl. intros Hr.
  split; [done|]. by apply IH.
Qed.

Lemma safe_step expr st node processed rest st' :
  stack st = (node, processed) :: rest → safe h expr st →
  iteration h fn st node processed rest = Ok st' → safe h expr st'.
Proof.
  destruct st as [v stk l]. simpl. intros -> [[Htop Hready] Hroot].
  simpl in Hready, Hroot. unfold iteration. simpl.
  destruct (v !! node) as [r|] eqn:Hnode.
  - intros [= <-]. split; simpl.
    + eapply ready_mono; [|exact Hready].
      intros c [?|Hc%list_elem_of_singleton]; left; [done|subst c; by eexists].
    + destruct Hroot as [?|[->|?]%elem_of_cons]; [by left|left; by eexists|by right].
  - destruct processed.
    + destruct (traverse (subscript v) (operands (h node))) as [rs|e]; [|done].
      simpl. intros [= <-]. split; simpl.
      * eapply ready_mono; [|exact Hready].
        intros c [Hc|Hc%list_elem_of_singleton]; left.
        -- apply lookup_insert_is_Some'. by right.
        -- subst c. rewrite lookup_insert_eq. by eexists.
      * destruct Hroot as [?|[->|?]%elem_of_cons].
        -- left. apply lookup_insert_is_Some'. by right.
        -- left. rewrite lookup_insert_eq. by eexists.
        -- by right.
    + intros [= <-]. rewrite push_children_unvisited. split; simpl.
      * apply ready_pending. simpl. split.
        -- intros _. apply Forall_forall. intros c Hc.
           destruct (v !! c) eqn:Hvc; [left; by eexists|].
           right. rewrite app_nil_r, elem_of_reverse. by apply unvisited_elem.
        -- eapply ready_mono; [|exact Hready].
           intros c [?|Hc%list_elem_of_singleton]; [by left|subst c; right; by left].
      * destruct Hroot as [?|Hin]; [by left|]. right.
        rewrite fmap_app, elem_of_app. right. exact Hin.
Qed.

Lemma safe_no_Err expr st node processed rest e :
  stack st = (node, processed) :: rest → safe h expr st →
  iteration h fn st node processed rest ≠ Err e.
Proof.
  destruct st as [v stk l]. simpl. intros -> [[Htop _] _].
  unfold iteration. simpl.
  destruct (v !! node) as [r|] eqn:Hnode; [done|].
  destruct processed; [|done].
  destruct (traverse_subscript v (operands (h node))) as (rs & -> & _); [|done].
  intros c Hc. specialize (Htop eq_refl). rewrite Forall_forall in Htop.
  destruct (Htop c Hc) as [?|?%elem_of_nil]; done.
Qed.

Lemma safe_init expr : safe h expr (State (∅ : gmap addr R) [(expr, false)] []).
Proof. split; simpl; [done|]. right. by left. Qed.

(** The outcomes of a call: out of fuel, or the value of the root. *)
Lemma postvisitor_outcome fuel expr :
  postvisitor h fn fuel expr = None ∨
  ∃ st r, loop h fn fuel (State ∅ [(expr, false)] []) = Some (Ok st) ∧
          visited st !! expr = Some r ∧
          postvisitor h fn fuel expr = Some (Ok (r, calls st)).
Proof.
  unfold postvisitor.
  destruct (loop h fn fuel (State ∅ [(expr, false)] [])) as [[st|e]|] eqn:Hloop.
  - right.
    destruct (loop_preserves (safe h expr) (safe_step expr) fuel _ _
                (safe_init expr) Hloop) as [[_ Hroot] Hstack].
    rewrite Hstack in Hroot. destruct Hroot as [[r Hr]|?%elem_of_nil]; [|done].
    exists st, r. split; [done|]. split; [done|].
    unfold subscript. by rewrite Hr.
  - exfalso.
    by eapply (loop_never_Err (safe h expr) (safe_step expr) (safe_no_Err expr)
                 fuel _ e (safe_init expr)).
  - by left.
Qed.
End postvisitor_more.

(** X12: [postvisitor] never raises, on any graph of nodes and with any
    [fn] that does not raise: no [visited[c]] meets a missing key, neither
    in the loop nor in the final [visited[expr]]. *)
Theorem postvisitor_never_raises {R : Type} (h : heap)
    (fn : addr → object → list R → R) (fuel : nat) (expr : addr) (e : exn) :
  postvisitor h fn fuel expr ≠ Some (Err e).
Proof.
  destruct (postvisitor_outcome h fn fuel expr) as [->|(st & r & _ & _ & ->)]; done.
Qed.

Section postvisitor_order.
Context {R : Type}.
Variable h : heap.
Variable fn : addr → object → list R → R.

Lemma recorded_step (st : state R) node processed rest st' :
  stack st = (node, processed) :: rest → recorded h st →
  iteration h fn st node processed rest = Ok st' → recorded h st'.
Proof.
  destruct st as [v stk l]. simpl. intros -> [Hkeys Hord]. simpl in Hkeys, Hord.
  unfold iteration. simpl.
  destruct (v !! node) as [r|] eqn:Hnode; [by intros [= <-]|].
  destruct processed; [|by intros [= <-]].
  destruct (traverse (subscript v) (operands (h node))) as [rs|e] eqn:Hrs; [|done].
  simpl. intros [= <-]. split; simpl.
  - intros x. rewrite elem_of_app, list_elem_of_singleton, Hkeys, lookup_insert_is_Some'.
    split; intros [?|?]; auto.
  - assert (∀ c, c ∈ operands (h node) → ∃ j, j < length l ∧ l !! j = Some c) as Hops.
    { intros c Hc. apply traverse_Ok in Hrs.
      apply list_elem_of_lookup in Hc as [i Hi].
      destruct (Forall2_lookup_l _ _ _ _ _ Hrs Hi) as (r & _ & Hr).
      unfold subscript in Hr. destruct (v !! c) as [r'|] eqn:Hvc; [|done].
      assert (c ∈ l) as [j Hj]%list_elem_of_lookup by (apply Hkeys; by eexists).
      exists j. split; [by eapply lookup_lt_Some|done]. }
    intros i a c Hi Hc.
    destruct (decide (i < length l)) as [Hlt|Hge].
    + rewrite lookup_app_l in Hi by done.
      destruct (Hord i a c Hi Hc) as (j & Hj & Hlj).
      exists j. split; [done|]. rewrite lookup_app_l; [done|]. lia.
    + rewrite lookup_app_r in Hi by lia.
      apply list_lookup_singleton_Some in Hi as [Hi ->].
      destruct (Hops c Hc) as (j & Hj & Hlj).
      exists j. split; [lia|]. by rewrite lookup_app_l.
Qed.

Lemma recorded_init : recorded h (State (∅ : gmap addr R) [] []) ∧
  ∀ stk, recorded h (State (∅ : gmap addr R) stk []).
Proof.
  assert (∀ stk, recorded h (State (∅ : gmap addr R) stk [])) as H; [|by split].
  intros stk. split; simpl.
  - intros x. rewrite lookup_empty. split; [by intros ?%elem_of_nil|by intros [? ?]].
  - intros i a c Hi. by rewrite lookup_nil in Hi.
Qed.

(** Everything reachable from a recorded node is recorded no later. *)
Lemma postordered_reach l a x :
  postordered h l → reach h a x →
  ∀ i, l !! i = Some a → ∃ j, j ≤ i ∧ l !! j = Some x.
Proof.
  intros Hord. induction 1 as [a|a c x Hc _ IH]; intros i Hi.
  - exists i. by split.
  - destruct (Hord i a c Hi Hc) as (j & Hj & Hlj).
    destruct (IH j Hlj) as (j' & Hj' & Hlj'). exists j'. split; [lia|done].
Qed.

(** No recorded node lies on a cycle. *)
Lemma postordered_no_cycle l :
  postordered h l →
  ∀ i a c, l !! i = Some a → c ∈ operands (h a) → reach h c a → False.
Proof.
  intros Hord i. induction (lt_wf i) as [i _ IH]. intros a c Hi Hc Hreach.
  destruct (Hord i a c Hi Hc) as (j & Hj & Hlj).
  destruct (postordered_reach l c a Hord Hreach j Hlj) as (j' & Hj' & Hlj').
  eapply (IH j'); [lia|done..].
Qed.

(** The state a terminating run ends in. *)
Lemma loop_end (Hh : acyclic h) expr :
  ∃ k v l,
    (∀ fuel, k ≤ fuel →
       loop h fn fuel (State ∅ [(expr, false)] []) = Some (Ok (State v [] l))) ∧
    inv h fn v l ∧
    (∀ x, is_Some (v !! x) ↔ reach h expr x).
Proof.
  destruct (run_pending h fn Hh (S expr) [expr] [] ∅ [])
    as (k & v & l & Hrun & Hinv & Hdom).
  { repeat constructor. }
  { apply inv_empty. }
  exists k, v, l. split; [|split; [done|]].
  - intros fuel Hfuel. replace fuel with (k + (fuel - k)) by lia.
    change [(expr, false)] with (pending [expr] ++ []).
    rewrite Hrun. by destruct (fuel - k).
  - intros x. rewrite Hdom, lookup_empty. split.
    + intros [[? ?]|(c & ->%list_elem_of_singleton & Hr)]; done.
    + intros Hr. right. exists expr. split; [by left|done].
Qed.
End postvisitor_order.

(** X13: the calls of [fn] are in postorder and end with the root: in the
    record of a call on an acyclic graph every operand of a node stands
    before the node, and the last call is the one on [expr]. *)
Theorem postvisitor_postorder {R : Type} (h : heap)
    (fn : addr → object → list R → R) (expr : addr) :
  acyclic h →
  ∃ k r l,
    (∀ fuel, k ≤ fuel → postvisitor h fn fuel expr = Some (Ok (r, l))) ∧
    postordered h l ∧
    last l = Some expr.
Proof.
  intros Hh.
  destruct (loop_end h fn Hh expr) as (k & v & l & Hrun & Hinv & Hdom).
  destruct (proj2 (Hdom expr)) as [r Hr]; [constructor|].
  destruct (loop_preserves h fn (recorded h) (recorded_step h fn) k _ _
              (proj2 (recorded_init h) _) (Hrun k (le_n k))) as [[_ Hord] _].
  simpl in Hord.
  exists k, r, l. split; [|split; [done|]].
  - intros fuel Hfuel. unfold postvisitor. rewrite (Hrun fuel Hfuel). simpl.
    unfold subscript. by rewrite Hr.
  - assert (expr ∈ l) as [i Hi]%list_elem_of_lookup
      by (apply (inv_calls _ _ _ _ Hinv); by eexists).
    assert (∀ j a, l !! j = Some a → j ≤ i) as Hmax.
    { intros j a Hj.
      assert (reach h expr a) as Hreach.
      { apply Hdom, (inv_calls _ _ _ _ Hinv), list_elem_of_lookup. by exists j. }
      destruct (postordered_reach h l expr a Hord Hreach i Hi) as (j' & Hj' & Hlj').
      by rewrite (NoDup_lookup l j j' a (inv_nodup _ _ _ _ Hinv) Hj Hlj'). }
    rewrite last_lookup.
    pose proof (lookup_lt_Some _ _ _ Hi) as Hlen.
    destruct (l !! pred (length l)) as [a|] eqn:Ha.
    + pose proof (Hmax _ _ Ha). replace (pred (length l)) with i in Ha by lia. congruence.
    + apply lookup_ge_None in Ha. lia.
Qed.

Lemma postvisitor_postorder_witness :
  ∃ k r l,
    (∀ fuel, k ≤ fuel → postvisitor distinct_heap tree_size fuel 2 = Some (Ok (r, l))) ∧
    postordered distinct_heap l ∧
    last l = Some 2.
Proof.
  apply postvisitor_postorder.
  intros [|[|[|a]]]; simpl; repeat constructor.
Defined.

(** X14: on a graph with a cycle that can be reached from [expr], the loop
    never ends: whatever the fuel, [postvisitor] returns nothing and raises
    nothing. *)
Theorem postvisitor_cycle_diverges {R : Type} (h : heap)
    (fn : addr → object → list R → R) (expr a c : addr) (fuel : nat) :
  reach h expr a →
  c ∈ operands (h a) →
  reach h c a →
  postvisitor h fn fuel expr = None.
Proof.
  intros Hreach Hc Hcycle.
  destruct (postvisitor_outcome h fn fuel expr) as [?|(st & r & Hloop & Hr & _)]; [done|].
  exfalso.
  destruct (loop_preserves h fn (recorded h) (recorded_step h fn) fuel _ _
              (proj2 (recorded_init h) _) Hloop) as [[Hkeys Hord] _].
  assert (expr ∈ calls st) as [i Hi]%list_elem_of_lookup
    by (apply Hkeys; by eexists).
  destruct (postordered_reach h _ expr a Hord Hreach i Hi) as (j & _ & Hj).
  by eapply (postordered_no_cycle h _ Hord j a c).
Qed.

Lemma postvisitor_cycle_diverges_witness :
  postvisitor (λ a, match a with 0 => OOp Add_cls [1] | _ => OOp Mul_cls [2; 1] end)
    tree_size 1000 0 = None.
Proof.
  apply (postvisitor_cycle_diverges _ tree_size 0 1 1 1000).
  - eapply reach_operand; [|apply reach_self]. simpl. by left.
  - simpl. right. by left.
  - apply reach_self.
Defined.

Lemma represents_evaluates {R : Type} (h : heap) (alg : head → list R → R) e :
  ∀ a, represents h a e →
       evaluates h (λ _ o rs, alg (head_of o) rs) a (fold_expr alg e).
Proof.
  induction e as [n|s|v|c es IH] using expr_nested_ind; intros a Hrep;
    inversion Hrep as [? ? Ha|? ? Ha|? ? Ha|? ? operands ? Ha Hops]; subst.
  - pose proof (evaluates_node h (λ _ o rs, alg (head_of o) rs) a []) as H.
    rewrite Ha in H. apply H. constructor.
  - pose proof (evaluates_node h (λ _ o rs, alg (head_of o) rs) a []) as H.
    rewrite Ha in H. apply H. constructor.
  - pose proof (evaluates_node h (λ _ o rs, alg (head_of o) rs) a []) as H.
    rewrite Ha in H. apply H. constructor.
  - pose proof (evaluates_node h (λ _ o rs, alg (head_of o) rs) a
                  (map (fold_expr alg) es)) as H.
    rewrite Ha in H. apply H. simpl. clear H Ha Hrep.
    apply Forall2_fmap_r.
    induction Hops as [|o e operands es Ho _ IHops]; [constructor|].
    apply Forall_cons in IH as [IH1 IH2].
    constructor; [by apply IH1|by apply IHops].
Qed.

(** X15: the memo does not change the value: on an acyclic graph, with a
    visitor function that does not look at the identity of the node,
    [postvisitor] returns what the plain recursive evaluation returns on the
    tree the root unfolds to, however much of it is shared. *)
Theorem postvisitor_fold {R : Type} (h : heap) (alg : head → list R → R)
    (root : addr) (e : expr) :
  acyclic h →
  represents h root e →
  ∃ k l, ∀ fuel, k ≤ fuel →
    postvisitor h (λ _ o rs, alg (head_of o) rs) fuel root
    = Some (Ok (fold_expr alg e, l)).
Proof.
  intros Hh Hrep.
  destruct (loop_end h (λ _ o rs, alg (head_of o) rs) Hh root)
    as (k & v & l & Hrun & Hinv & Hdom).
  destruct (proj2 (Hdom root)) as [r Hr]; [constructor|].
  assert (r = fold_expr alg e) as ->.
  { eapply (evaluates_fun h _ Hh root).
    - by eapply inv_values.
    - by apply represents_evaluates. }
  exists k, l. intros fuel Hfuel.
  unfold postvisitor. rewrite (Hrun fuel Hfuel). simpl.
  unfold subscript. by rewrite Hr.
Qed.

Lemma postvisitor_fold_witness :
  ∃ k l, ∀ fuel, k ≤ fuel →
    postvisitor shared_heap
      (λ _ o rs, (λ (_ : head) (rs : list nat), S (foldr Nat.add 0 rs)) (head_of o) rs)
      fuel 1
    = Some (Ok (3, l)).
Proof.
  apply (postvisitor_fold shared_heap (λ _ rs, S (foldr Nat.add 0 rs)) 1
           (EOp Add_cls [ESymbol "x"; ESymbol "x"])).
  - intros [|[|a]]; simpl; repeat constructor.
  - eapply represents_Op; [reflexivity|].
    repeat constructor.
Defined.

(** X16: a node without operands, such as a terminal, takes two iterations
    on any graph: [fn] is called once, on the node and no operand result,
    and its value is returned. *)
Theorem postvisitor_leaf {R : Type} (h : heap)
    (fn : addr → object → list R → R) (root : addr) (fuel : nat) :
  operands (h root) = [] →
  2 ≤ fuel →
  postvisitor h fn fuel root = Some (Ok (fn root (h root) [], [root])) ∧
  postvisitor h fn 1 root = None.
Proof.
  intros Hops Hfuel.
  destruct fuel as [|[|fuel]]; [lia|lia|].
  assert (iteration h fn (State ∅ [(root, false)] []) root false []
          = Ok (State ∅ [(root, true)] [])) as Hexpand.
  { unfold iteration. simpl. by rewrite lookup_empty, Hops. }
  assert (iteration h fn (State ∅ [(root, true)] []) root true []
          = Ok (State (<[root := fn root (h root) []]> ∅) [] [root])) as Hcall.
  { unfold iteration. simpl. by rewrite lookup_empty, Hops. }
  unfold postvisitor. split.
  - rewrite loop_step, Hexpand, loop_step, Hcall.
    destruct fuel; simpl; unfold subscript; by rewrite lookup_insert_eq.
  - rewrite loop_step, Hexpand. reflexivity.
Qed.

Lemma postvisitor_leaf_witness :
  postvisitor shared_heap tree_size 2 0 = Some (Ok (1, [0])).
Proof.
  exact (proj1 (postvisitor_leaf shared_heap tree_size 0 2 eq_refl (le_n 2))).
Defined.

Section postvisitor_bound.
Context {R : Type}.
Variable h : heap.
Variable fn : addr → object → list R → R.
Hypothesis h_acyclic : acyclic h.

Lemma unvisited_length (v : gmap addr R) cs : length (unvisited v cs) ≤ length cs.
Proof.
  induction cs as [|c cs IH]; simpl; [done|].
  destruct (v !! c); simpl; lia.
Qed.

Lemma work_app l1 l2 : work h (l1 ++ l2) = work h l1 + work h l2.
Proof. induction l1 as [|n l1 IH]; simpl; [done|]. rewrite IH. lia. Qed.

Lemma runs_within_nil rest v l : inv h fn v l → runs_within h fn [] rest v l.
Proof.
  intros Hinv. exists 0, v, []. rewrite app_nil_r.
  split; [done|]. split; [done|]. split; [|simpl; lia].
  intros x. split; [by left|]. intros [?|(c & Hc%elem_of_nil & _)]; done.
Qed.

Lemma runs_within_visited c cs rest v l :
  inv h fn v l → is_Some (v !! c) →
  runs_within h fn cs rest v l → runs_within h fn (c :: cs) rest v l.
Proof.
  intros Hinv [r Hc] (k & v' & new & Hrun & Hinv' & Hdom & Hk).
  exists (S k), v', new. split; [|split; [done|split; [|simpl; lia]]].
  - intros fuel. rewrite <- Hrun.
    change (S k + fuel) with (S (k + fuel)).
    change (pending (c :: cs) ++ rest) with ((c, false) :: pending cs ++ rest).
    rewrite loop_step. unfold iteration. simpl. by rewrite Hc.
  - intros x. rewrite Hdom. split.
    + intros [?|(c' & Hc' & Hr)]; [by left|].
      right. exists c'. split; [by right|done].
    + intros [?|(c' & Hc' & Hr)]; [by left|].
      apply elem_of_cons in Hc' as [->|Hc'].
      * left. eapply inv_reach; [done| |done]. by eexists.
      * right. by exists c'.
Qed.

Lemma runs_within_fresh c cs rest v l :
  inv h fn v l → v !! c = None →
  (∀ rest', runs_within h fn (unvisited v (operands (h c))) rest' v l) →
  (∀ v' l', inv h fn v' l' → runs_within h fn cs rest v' l') →
  runs_within h fn (c :: cs) rest v l.
Proof.
  intros Hinv Hc Hops Hcs.
  destruct (Hops ((c, true) :: pending cs ++ rest))
    as (k1 & v1 & new1 & Hrun1 & Hinv1 & Hdom1 & Hk1).
  assert (v1 !! c = None) as Hc1.
  { apply eq_None_not_Some. rewrite Hdom1.
    intros [[r Hr]|(o & [Ho _]%(unvisited_elem fn) & Hreach)]; [congruence|].
    apply (reach_le h h_acyclic) in Hreach.
    pose proof (h_acyclic c) as Hlt. rewrite Forall_forall in Hlt.
    specialize (Hlt o Ho). simpl in Hlt. lia. }
  assert (∀ o, o ∈ operands (h c) → is_Some (v1 !! o)) as Hall.
  { intros o Ho. rewrite Hdom1.
    destruct (v !! o) eqn:Hvo; [left; by eexists|].
    right. exists o. split; [|constructor]. by apply (unvisited_elem fn). }
  destruct (traverse_subscript v1 _ Hall) as (rs & Hrs & Hrs2).
  pose proof (inv_insert h fn v1 (l ++ new1) c rs Hinv1 Hc1 Hrs2) as Hinv2.
  destruct (Hcs _ _ Hinv2) as (k3 & v3 & new3 & Hrun3 & Hinv3 & Hdom3 & Hk3).
  exists (S (k1 + S k3)), v3, (new1 ++ [c] ++ new3).
  replace (l ++ new1 ++ [c] ++ new3) with (((l ++ new1) ++ [c]) ++ new3)
    by (by rewrite <- !app_assoc).
  split; [|split; [done|split]].
  - intros fuel. rewrite <- Hrun3.
    replace (S (k1 + S k3) + fuel) with (S (k1 + S (k3 + fuel))) by lia.
    change (pending (c :: cs) ++ rest) with ((c, false) :: pending cs ++ rest).
    rewrite loop_step. unfold iteration. simpl. rewrite Hc.
    rewrite push_children_unvisited, Hrun1.
    rewrite loop_step. unfold iteration. simpl. rewrite Hc1, Hrs. done.
  - intros x. rewrite Hdom3.
    assert (is_Some (<[c:=fn c (h c) rs]> v1 !! x)
            ↔ is_Some (v !! x) ∨ reach h c x) as ->.
    { destruct (decide (c = x)) as [->|Hcx].
      - rewrite lookup_insert_eq. split; [right; constructor|by eexists].
      - rewrite lookup_insert_ne, Hdom1 by done. split.
        + intros [?|(o & [Ho _]%(unvisited_elem fn) & Hr)]; [by left|].
          right. by eapply reach_operand.
        + intros [?|Hr]; [by left|].
          inversion Hr as [|? o ? Ho Hr']; subst; [done|].
          destruct (v !! o) eqn:Hvo.
          * left. eapply inv_reach; [done| |done]. by eexists.
          * right. exists o. split; [by apply (unvisited_elem fn)|done]. }
    split.
    + intros [[?|?]|(c' & Hc' & Hr)]; [by left| |].
      * right. exists c. split; [by left|done].
      * right. exists c'. split; [by right|done].
    + intros [?|(c' & Hc' & Hr)]; [by left; left|].
      apply elem_of_cons in Hc' as [->|Hc']; [by left; right|].
      right. by exists c'.
  - rewrite !work_app. simpl.
    pose proof (unvisited_length v (operands (h c))). lia.
Qed.

Lemma run_within n : ∀ cs rest v l,
  Forall (λ c, c < n) cs → inv h fn v l → runs_within h fn cs rest v l.
Proof.
  induction n as [|m IHm]; intros cs.
  - destruct cs as [|c cs]; intros rest v l Hcs Hinv; [by apply runs_within_nil|].
    apply Forall_cons in Hcs as [Hc _]. lia.
  - induction cs as [|c cs IHcs]; intros rest v l Hcs Hinv;
      [by apply runs_within_nil|].
    apply Forall_cons in Hcs as [Hc Hcs].
    destruct (v !! c) as [r|] eqn:Hvc.
    + apply runs_within_visited; [done|by eexists|by apply IHcs].
    + apply runs_within_fresh; [done|done| |].
      * intros rest'. apply IHm; [|done].
        apply Forall_forall. intros o [Ho _]%(unvisited_elem fn).
        pose proof (h_acyclic c) as Hlt. rewrite Forall_forall in Hlt.
        specialize (Hlt o Ho). simpl in Hlt. lia.
      * intros v' l' Hinv'. by apply IHcs.
Qed.
End postvisitor_bound.

(** X17: the memo keeps the traversal linear: on an acyclic graph the loop
    ends within one iteration, plus one per reachable node, plus one per
    operand slot of a reachable node, however many paths lead to a node. *)
Theorem postvisitor_linear {R : Type} (h : heap)
    (fn : addr → object → list R → R) (root : addr) :
  acyclic h →
  ∃ r l,
    (∀ fuel, 1 + work h l ≤ fuel → postvisitor h fn fuel root = Some (Ok (r, l))) ∧
    NoDup l ∧
    (∀ a, a ∈ l ↔ reach h root a).
Proof.
  intros Hh.
  destruct (run_within h fn Hh (S root) [root] [] ∅ [])
    as (k & v & l & Hrun & Hinv & Hdom & Hk).
  { repeat constructor. }
  { apply inv_empty. }
  simpl in Hinv, Hrun, Hk.
  assert (∀ a, is_Some (v !! a) ↔ reach h root a) as Hreach.
  { intros a. rewrite Hdom, lookup_empty. split.
    - intros [[? ?]|(c & ->%list_elem_of_singleton & Hr)]; done.
    - intros Hr. right. exists root. split; [by left|done]. }
  destruct (proj2 (Hreach root)) as [r Hr]; [constructor|].
  exists r, l. split; [|split].
  - intros fuel Hfuel. unfold postvisitor.
    replace fuel with (k + (fuel - k)) by lia.
    change [(root, false)] with (pending [root] ++ []).
    rewrite Hrun. destruct (fuel - k); simpl; unfold subscript; by rewrite Hr.
  - by eapply inv_nodup.
  - intros a. by rewrite (inv_calls _ _ _ _ Hinv), Hreach.
Qed.

Lemma postvisitor_linear_witness :
  ∃ r l,
    (∀ fuel, 1 + work shared_heap l ≤ fuel →
       postvisitor shared_heap tree_size fuel 1 = Some (Ok (r, l))) ∧
    NoDup l ∧
    (∀ a, a ∈ l ↔ reach shared_heap 1 a).
Proof.
  apply postvisitor_linear.
  intros [|[|a]]; simpl; repeat constructor.
Defined.
